(** * pagmo::random_device (include/pagmo/rng.hpp)

    A shallow embedding of PaGMO's global, mutex-protected pseudo random
    sequence and of the engine it wraps, [std::mt19937]. *)

From Stdlib Require Import ZArith List Lia Permutation.
From stdpp Require Import base numbers list.
Import ListNotations.

Local Open Scope Z_scope.

(** ** The engine: std::mt19937

    [rng.hpp] only names the engine ([using random_engine_type =
    std::mt19937]); the engine itself lives in the C++ standard library. *)

Module mt19937.

(** Modelled from the spec: the engine type [std::mt19937] is used but not
    defined by [rng.hpp]. The spec calls it the 32-bit Mersenne Twister,
    whose state is a large state vector plus an index. Its parameters and
    algorithms are those ISO C++ fixes for
    [mersenne_twister_engine<uint_fast32_t, 32, 624, 397, 31, 0x9908b0df,
    11, 0xffffffff, 7, 0x9d2c5680, 15, 0xefc60000, 18, 1812433253>]. *)
Definition word_size : Z := 32.
Definition state_size : nat := 624.
Definition shift_size : nat := 397.
Definition mask_bits : Z := 31.
Definition xor_mask : Z := 0x9908b0df.
Definition tempering_u : Z := 11.
Definition tempering_d : Z := 0xffffffff.
Definition tempering_s : Z := 7.
Definition tempering_b : Z := 0x9d2c5680.
Definition tempering_t : Z := 15.
Definition tempering_c : Z := 0xefc60000.
Definition tempering_l : Z := 18.
Definition initialization_multiplier : Z := 1812433253.

(** Arithmetic modulo 2^w, and the two shifts of the standard's text. *)
Definition wrap (z : Z) : Z := z mod 2 ^ word_size.
Definition rshift (z k : Z) : Z := Z.shiftr z k.
Definition lshift_w (z k : Z) : Z := wrap (Z.shiftl z k).

Definition lower_mask : Z := Z.ones mask_bits.
Definition upper_mask : Z := Z.lxor (Z.ones word_size) lower_mask.

(** One value of the twisted feedback shift register, from X[i-n],
    X[i+1-n] and X[i+m-n]. *)
Definition twist (x0 x1 xm : Z) : Z :=
  let y := Z.lor (Z.land x0 upper_mask) (Z.land x1 lower_mask) in
  let alpha := xor_mask * Z.land y 1 in
  Z.lxor (Z.lxor xm (rshift y 1)) alpha.

(** The tempering (bit scrambling) of the generation algorithm. *)
Definition temper (x : Z) : Z :=
  let z1 := Z.lxor x (Z.land (rshift x tempering_u) tempering_d) in
  let z2 := Z.lxor z1 (Z.land (lshift_w z1 tempering_s) tempering_b) in
  let z3 := Z.lxor z2 (Z.land (lshift_w z2 tempering_t) tempering_c) in
  Z.lxor z3 (rshift z3 tempering_l).

(** The seeding recurrence: the value that follows [prev] at position [i]. *)
Definition seed_next (i : nat) (prev : Z) : Z :=
  wrap (initialization_multiplier
          * Z.lxor prev (rshift prev (word_size - 2))
        + Z.of_nat (i mod state_size)).

Fixpoint seed_fill (k i : nat) (prev : Z) : list Z :=
  match k with
  | O => []
  | S k' => let x := seed_next i prev in x :: seed_fill k' (S i) x
  end.

(** The engine object: state vector and read index. *)
Record engine : Type := Engine {
  state_vector : list Z;
  index : nat
}.

(** Modelled from the spec: [e.seed(value)], also the constructor
    [mt19937(value)], of the engine [rng.hpp] uses without defining it:
    X[0] = value mod 2^w, X[i] = (f * (X[i-1] xor (X[i-1] rshift (w-2)))
    + i mod n) mod 2^w, and the next draw regenerates the state vector. *)
Definition seed (value : Z) : engine :=
  let x0 := wrap value in
  {| state_vector := x0 :: seed_fill (state_size - 1) 1 x0;
     index := state_size |}.

(** Regeneration of the state vector in place, slot by slot; subscripts
    are taken modulo n. *)
Definition refill_at (x : list Z) (k : nat) : list Z :=
  <[k := twist (x !!! k)
               (x !!! ((k + 1) mod state_size)%nat)
               (x !!! ((k + shift_size) mod state_size)%nat)]> x.

Definition gen_rand (x : list Z) : list Z :=
  foldl refill_at x (seq 0 state_size).

(** Modelled from the spec: [e()], one draw of the engine [rng.hpp] uses
    without defining it. The state vector is regenerated when it is used up;
    the draw is the tempered word at the index, which moves on by one.
    Returns the value and the advanced engine. *)
Definition generate (e : engine) : Z * engine :=
  let refill := (state_size <=? index e)%nat in
  let x := if refill then gen_rand (state_vector e) else state_vector e in
  let p := if refill then O else index e in
  (temper (x !!! p), {| state_vector := x; index := S p |}).

(** [e.discard(z)]: the engine after [z] consecutive draws. *)
Fixpoint discard (z : nat) (e : engine) : engine :=
  match z with
  | O => e
  | S z' => discard z' (snd (generate e))
  end.

(** [std::mt19937::default_seed]. *)
Definition default_seed : Z := 5489.

(** Class invariant of a constructed engine. *)
Definition wf (e : engine) : Prop :=
  length (state_vector e) = state_size
  /\ (index e <= state_size)%nat
  /\ Forall (fun x => 0 <= x < 2 ^ 32) (state_vector e).

(** The invariant as a check that computes. *)
Definition wf_b (e : engine) : bool :=
  (length (state_vector e) =? state_size)%nat
  && (index e <=? state_size)%nat
  && forallb (fun x => (0 <=? x) && (x <? 2 ^ 32)) (state_vector e).

End mt19937.

(** ** The reference generator: MT19937 of Matsumoto and Nishimura (1998)

    The sequence the header's comment refers to, written from its defining
    recurrence

      x[k+n] = x[k+m] xor ((x[k] upper bit | x[k+1] lower 31 bits) A)

    over a window of the last n = 624 words, with the literal constants of
    the published generator. Output number k is the tempered x[k+n]. *)

Module reference.

Definition N : nat := 624.
Definition M : nat := 397.
Definition MATRIX_A : Z := 0x9908b0df.
Definition UPPER_MASK : Z := 0x80000000.
Definition LOWER_MASK : Z := 0x7fffffff.

(** The words x[0] .. x[n-1] a 32-bit seed determines:
    x[0] = s, x[i] = 1812433253 * (x[i-1] xor (x[i-1] >> 30)) + i,
    each kept to 32 bits. *)
Fixpoint init_rest (k i : nat) (prev : Z) : list Z :=
  match k with
  | O => []
  | S k' =>
      let x := Z.land (1812433253 * Z.lxor prev (Z.shiftr prev 30)
                       + Z.of_nat i) 0xffffffff in
      x :: init_rest k' (S i) x
  end.

Definition init (s : Z) : list Z :=
  let x0 := Z.land s 0xffffffff in x0 :: init_rest (N - 1) 1 x0.

(** x[k+n] from the window x[k] .. x[k+n-1]. *)
Definition next_word (win : list Z) : Z :=
  let y := Z.lor (Z.land (win !!! O) UPPER_MASK)
                 (Z.land (win !!! 1%nat) LOWER_MASK) in
  Z.lxor (Z.lxor (win !!! M) (Z.shiftr y 1))
         (if Z.odd y then MATRIX_A else 0).

Definition slide (win : list Z) : list Z := tl win ++ [next_word win].

Definition tempering (y : Z) : Z :=
  let y1 := Z.lxor y (Z.shiftr y 11) in
  let y2 := Z.lxor y1 (Z.land (Z.shiftl y1 7) 0x9d2c5680) in
  let y3 := Z.lxor y2 (Z.land (Z.shiftl y2 15) 0xefc60000) in
  Z.lxor y3 (Z.shiftr y3 18).

(** Output number [k] (from 0) of the generator seeded with [s]. *)
Definition output (s : Z) (k : nat) : Z :=
  tempering (next_word (Nat.iter k slide (init s))).

Definition outputs (s : Z) (n : nat) : list Z := map (output s) (seq 0 n).

End reference.

(** ** pagmo::random_device

    The statics of [detail::random_device_statics] and the two static
    methods of [random_device]. A call is a computation on the statics that
    either completes with a value and the new statics, or cannot proceed
    because the mutex it needs is held. *)

(** [unsigned int], the type of seeds and of the values [next] returns, is
    the unsigned 32-bit integer of the specification. *)
Definition unsigned_int_digits : Z := 32.
Definition static_cast_unsigned_int (z : Z) : Z := z mod 2 ^ unsigned_int_digits.

(** [std::mutex]. *)
Inductive mutex : Type := unlocked | locked.

Definition random_engine_type : Type := mt19937.engine.

Record random_device_statics : Type := Statics {
  m_e : random_engine_type;
  m_mutex : mutex
}.

Definition action (A : Type) : Type :=
  random_device_statics -> option (A * random_device_statics).

Definition ret {A} (a : A) : action A := fun st => Some (a, st).

Definition bind {A B} (c : action A) (k : A -> action B) : action B :=
  fun st => match c st with
            | Some (a, st') => k a st'
            | None => None
            end.

Notation "x <- c ;; k" := (bind c (fun x => k))
  (at level 100, c at next level, right associativity).
Notation "c ;;; k" := (bind c (fun _ => k))
  (at level 100, right associativity).

(** [m_mutex.lock()] and [m_mutex.unlock()]. *)
Definition lock : action unit := fun st =>
  match m_mutex st with
  | unlocked => Some (tt, {| m_e := m_e st; m_mutex := locked |})
  | locked => None
  end.

Definition unlock : action unit := fun st =>
  Some (tt, {| m_e := m_e st; m_mutex := unlocked |}).

(** [std::lock_guard<std::mutex> lock(m_mutex);] around a body: the mutex is
    taken on construction and released when the scope is left. *)
Definition lock_guard {A} (body : action A) : action A :=
  lock ;;; r <- body ;; unlock ;;; ret r.

(** [m_e()] and [m_e.seed(value)] on the shared engine. *)
Definition engine_call : action Z := fun st =>
  let (v, e) := mt19937.generate (m_e st) in
  Some (v, {| m_e := e; m_mutex := m_mutex st |}).

Definition engine_seed (value : Z) : action unit := fun st =>
  Some (tt, {| m_e := mt19937.seed value; m_mutex := m_mutex st |}).

(** [random_device::next()]. *)
Definition next : action Z :=
  lock_guard (v <- engine_call ;; ret (static_cast_unsigned_int v)).

Section result_type.

(** [std::mt19937::result_type] is [uint_fast32_t]: an unsigned type of
    at least 32 value bits whose exact width the platform chooses. *)
Variable result_type_digits : Z.

Definition static_cast_result_type (z : Z) : Z := z mod 2 ^ result_type_digits.

(** [random_device::set_seed(seed)]. *)
Definition set_seed (seed : Z) : action unit :=
  lock_guard (engine_seed (static_cast_result_type seed)).

(** The statics when the program starts: [m_e] constructed from one value
    [entropy] of [std::random_device()()], [m_mutex] default constructed. *)
Definition statics_init (entropy : Z) : random_device_statics :=
  {| m_e := mt19937.seed (static_cast_result_type entropy);
     m_mutex := unlocked |}.

End result_type.

(** The statics before the dynamic initialisation of [m_e] has run. Objects
    of static storage duration are zero-initialised first: the engine's
    state vector holds zeros and its index is zero. [std::mutex] has a
    constexpr constructor, so [m_mutex] is usable, and free, from the start.
    [m_e] is a static member of a class template: its dynamic initialisation
    is unordered with respect to the initialisers of other objects, and
    neither method waits for it. *)
Definition statics_zero : random_device_statics :=
  {| m_e := {| mt19937.state_vector := replicate mt19937.state_size 0;
               mt19937.index := O |};
     m_mutex := unlocked |}.

(** The dynamic initialisation of [m_e], whenever it runs: the engine is
    constructed from one value [entropy] of [std::random_device()()]. *)
Definition construct_m_e (rtd : Z) (entropy : Z) : action unit := fun st =>
  Some (tt, {| m_e := mt19937.seed (static_cast_result_type rtd entropy);
               m_mutex := m_mutex st |}).

(** [n] consecutive calls of [next()] from one thread. *)
Fixpoint draws (n : nat) : action (list Z) :=
  match n with
  | O => ret []
  | S n' => v <- next ;; vs <- draws n' ;; ret (v :: vs)
  end.

(** A call of either method, and a sequence of calls from one thread. *)
Inductive call : Type :=
| call_next
| call_set_seed (seed : Z).

Definition do_call (rtd : Z) (c : call) : action (option Z) :=
  match c with
  | call_next => v <- next ;; ret (Some v)
  | call_set_seed seed => set_seed rtd seed ;;; ret None
  end.

Fixpoint run (rtd : Z) (cs : list call) : action (list (option Z)) :=
  match cs with
  | [] => ret []
  | c :: cs' => r <- do_call rtd c ;; rs <- run rtd cs' ;; ret (r :: rs)
  end.

(** ** Threads calling the two methods concurrently

    Each thread runs its calls one after the other. Inside a call a thread
    takes one small step at a time, and steps of different threads
    interleave in any order the scheduler picks: constructing the
    [lock_guard] (possible only while the mutex is free), the engine access,
    and destroying the [lock_guard]. The engine access of [next()] is a read
    of the engine followed by a write of the advanced engine, so that two
    unprotected accesses could overlap and lose a draw. *)

Inductive pc : Type :=
| outside                          (* not inside a call *)
| entered (c : call)               (* lock_guard constructed *)
| engine_read (e : mt19937.engine) (* m_e() has read the engine *)
| leaving (r : option Z).          (* engine written, value to return in hand *)

Record thread : Type := Thread {
  pending : list call;
  at_pc : pc;
  returned : list Z
}.

Definition result_values (r : option Z) : list Z :=
  match r with
  | Some v => [v]
  | None => []
  end.

Definition thread_step (rtd : Z) (st : random_device_statics) (th : thread)
  : option (random_device_statics * thread) :=
  match at_pc th with
  | outside =>
      match pending th with
      | [] => None
      | c :: rest =>
          match lock st with
          | Some (_, st') =>
              Some (st', {| pending := rest; at_pc := entered c;
                            returned := returned th |})
          | None => None
          end
      end
  | entered call_next =>
      Some (st, {| pending := pending th; at_pc := engine_read (m_e st);
                   returned := returned th |})
  | entered (call_set_seed seed) =>
      match engine_seed (static_cast_result_type rtd seed) st with
      | Some (_, st') =>
          Some (st', {| pending := pending th; at_pc := leaving None;
                        returned := returned th |})
      | None => None
      end
  | engine_read e =>
      let (v, e') := mt19937.generate e in
      Some ({| m_e := e'; m_mutex := m_mutex st |},
            {| pending := pending th;
               at_pc := leaving (Some (static_cast_unsigned_int v));
               returned := returned th |})
  | leaving r =>
      match unlock st with
      | Some (_, st') =>
          Some (st', {| pending := pending th; at_pc := outside;
                        returned := returned th ++ result_values r |})
      | None => None
      end
  end.

Record system : Type := System {
  statics : random_device_statics;
  threads : list thread
}.

(** Thread [t] takes its next step; [None] when it has none to take (it is
    done, it waits for the mutex, or there is no such thread). *)
Definition sys_step (rtd : Z) (t : nat) (sys : system) : option system :=
  match threads sys !! t with
  | Some th =>
      match thread_step rtd (statics sys) th with
      | Some (st', th') =>
          Some {| statics := st'; threads := <[t := th']> (threads sys) |}
      | None => None
      end
  | None => None
  end.

(** A schedule names the thread that steps next, step after step. *)
Fixpoint sys_run (rtd : Z) (schedule : list nat) (sys : system) : option system :=
  match schedule with
  | [] => Some sys
  | t :: schedule' =>
      match sys_step rtd t sys with
      | Some sys' => sys_run rtd schedule' sys'
      | None => None
      end
  end.

(** All threads about to start their programs, engine [e], mutex free. *)
Definition spawn (e : mt19937.engine) (programs : list (list call)) : system :=
  {| statics := {| m_e := e; m_mutex := unlocked |};
     threads := map (fun p => {| pending := p; at_pc := outside;
                                 returned := [] |}) programs |}.

Definition finished (sys : system) : Prop :=
  Forall (fun th => pending th = [] /\ at_pc th = outside) (threads sys).

(** At most one thread is inside a call body, none while the mutex is
    free, and an engine value a thread has read is still the engine. *)
Definition serialized (sys : system) : Prop :=
  (m_mutex (statics sys) = unlocked ->
   forall t th, threads sys !! t = Some th -> at_pc th = outside)
  /\ (forall t1 t2 th1 th2,
        threads sys !! t1 = Some th1 -> threads sys !! t2 = Some th2 ->
        at_pc th1 <> outside -> at_pc th2 <> outside -> t1 = t2)
  /\ (forall t th e,
        threads sys !! t = Some th -> at_pc th = engine_read e ->
        e = m_e (statics sys)).

(** ** Predicates used in the statements *)

(** A 32-bit word. *)
Definition word (x : Z) : Prop := 0 <= x < 2 ^ 32.

(** A window of the reference sequence: [state_size] words. *)
Definition window (win : list Z) : Prop :=
  length win = mt19937.state_size /\ Forall word win.

(** The state vector of [e] is the window [state_size - index e] slides
    ahead of [win]: slots below the index are already delivered. *)
Definition sim (e : mt19937.engine) (win : list Z) : Prop :=
  window win
  /\ (mt19937.index e <= mt19937.state_size)%nat
  /\ mt19937.state_vector e
     = Nat.iter (mt19937.state_size - mt19937.index e) reference.slide win.

(** The values [n] draws deliver from engine state [e]. *)
Definition stream (e : mt19937.engine) (n : nat) : list Z :=
  map (fun k => static_cast_unsigned_int
                  (fst (mt19937.generate (mt19937.discard k e))))
      (seq 0 n).

(** [n] steps in a row of one thread. *)
Fixpoint thread_run (rtd : Z) (n : nat) (st : random_device_statics)
  (th : thread) : option (random_device_statics * thread) :=
  match n with
  | O => Some (st, th)
  | S n' =>
      match thread_step rtd st th with
      | Some (st', th') => thread_run rtd n' st' th'
      | None => None
      end
  end.

(** The steps of a thread, one constructor per kind of step. *)
Inductive thread_steps (rtd : Z) (st : random_device_statics) (th : thread)
  : random_device_statics -> thread -> Prop :=
| step_acquire c rest :
    at_pc th = outside -> pending th = c :: rest -> m_mutex st = unlocked ->
    thread_steps rtd st th
      {| m_e := m_e st; m_mutex := locked |}
      {| pending := rest; at_pc := entered c; returned := returned th |}
| step_read :
    at_pc th = entered call_next ->
    thread_steps rtd st th st
      {| pending := pending th; at_pc := engine_read (m_e st);
         returned := returned th |}
| step_reseed seed :
    at_pc th = entered (call_set_seed seed) ->
    thread_steps rtd st th
      {| m_e := mt19937.seed (static_cast_result_type rtd seed);
         m_mutex := m_mutex st |}
      {| pending := pending th; at_pc := leaving None;
         returned := returned th |}
| step_write e :
    at_pc th = engine_read e ->
    thread_steps rtd st th
      {| m_e := snd (mt19937.generate e); m_mutex := m_mutex st |}
      {| pending := pending th;
         at_pc := leaving (Some (static_cast_unsigned_int
                                   (fst (mt19937.generate e))));
         returned := returned th |}
| step_release r :
    at_pc th = leaving r ->
    thread_steps rtd st th
      {| m_e := m_e st; m_mutex := unlocked |}
      {| pending := pending th; at_pc := outside;
         returned := returned th ++ result_values r |}.

(** While the mutex is held, some thread is inside a call body. *)
Definition holder_inside (sys : system) : Prop :=
  m_mutex (statics sys) = locked ->
  exists t th, threads sys !! t = Some th /\ at_pc th <> outside.

(** The values a thread has obtained from the engine so far: those its
    calls returned, and the one it is about to return. *)
Definition values (th : thread) : list Z :=
  returned th ++ match at_pc th with
                 | leaving r => result_values r
                 | _ => []
                 end.

Definition delivered (ths : list thread) : list Z := concat (map values ths).

Definition next_only (th : thread) : Prop :=
  Forall (eq call_next) (pending th)
  /\ (forall c, at_pc th = entered c -> c = call_next)
  /\ at_pc th <> leaving None.

(** Calls of a thread add up to [C]: done, under way, and still to come. *)
Definition budget (C : nat) (th : thread) : Prop :=
  (length (values th) + length (pending th)
   + match at_pc th with
     | entered _ | engine_read _ => 1
     | _ => 0
     end = C)%nat.

Definition accounted (e0 : mt19937.engine) (T C : nat) (sys : system) : Prop :=
  length (threads sys) = T
  /\ Forall (fun th => next_only th /\ budget C th) (threads sys)
  /\ m_e (statics sys) = mt19937.discard (length (delivered (threads sys))) e0
  /\ Permutation (delivered (threads sys))
                 (stream e0 (length (delivered (threads sys)))).

(** ** Linearizations and remaining work of a concurrent run *)








(** Steps a call takes: [next()] enters, reads, writes, leaves;
    [set_seed()] enters, reseeds, leaves. *)
Definition call_steps (c : call) : nat :=
  match c with
  | call_next => 4
  | call_set_seed _ => 3
  end.

Definition steps_left (th : thread) : nat :=
  list_sum (map call_steps (pending th))
  + match at_pc th with
    | outside => 0
    | entered c => call_steps c - 1
    | engine_read _ => 2
    | leaving _ => 1
    end.

Definition work_left (sys : system) : nat :=
  list_sum (map steps_left (threads sys)).

(** Results of a sequence of calls have the shape of the calls: a 32-bit
    value for [next()], nothing for [set_seed()]. *)
Definition result_fits (c : call) (r : option Z) : Prop :=
  match c with
  | call_next => exists v, r = Some v /\ 0 <= v < 2 ^ 32
  | call_set_seed _ => r = None
  end.

(** ** A small concurrent run

    Two threads, two [next()] calls each, on the engine seeded with the
    default seed; thread 1 wins the mutex first. *)

Definition demo_programs : list (list call) := replicate 2 (replicate 2 call_next).

Definition demo_schedule : list nat :=
  [1; 1; 1; 1; 0; 0; 0; 0; 0; 0; 0; 0; 1; 1; 1; 1]%nat.

Definition demo_start : system :=
  spawn (mt19937.seed mt19937.default_seed) demo_programs.

Definition demo_final : system :=
  Eval vm_compute in
    match sys_run 64 demo_schedule demo_start with
    | Some sys => sys
    | None => demo_start
    end.

(** The same run stopped after three steps: thread 1 has written the
    engine and not yet left [next()], thread 0 has not started. *)
Definition demo_prefix : list nat := [1; 1; 1]%nat.

Definition demo_midway : system :=
  Eval vm_compute in
    match sys_run 64 demo_prefix demo_start with
    | Some sys => sys
    | None => demo_start
    end.

(** ** Facts about 32-bit words *)

Section words.

Lemma word_land_ones x : word x <-> Z.land x (Z.ones 32) = x.
Proof.
  unfold word. rewrite Z.land_ones by lia. split.
  - intros H. apply Z.mod_small. exact H.
  - intros H. rewrite <- H. apply Z.mod_pos_bound. lia.
Qed.

Lemma word_mod z : word (z mod 2 ^ 32).
Proof. unfold word. apply Z.mod_pos_bound. lia. Qed.

Lemma word_land_mask z k : word k -> word (Z.land z k).
Proof.
  intros Hk. apply word_land_ones. apply word_land_ones in Hk.
  rewrite <- Z.land_assoc. rewrite Hk. reflexivity.
Qed.

Lemma land_lxor_distr a b c :
  Z.land (Z.lxor a b) c = Z.lxor (Z.land a c) (Z.land b c).
Proof.
  apply Z.bits_inj'. intros i _.
  rewrite Z.land_spec, !Z.lxor_spec, !Z.land_spec.
  destruct (Z.testbit a i), (Z.testbit b i), (Z.testbit c i); reflexivity.
Qed.

Lemma word_lxor x y : word x -> word y -> word (Z.lxor x y).
Proof.
  intros Hx Hy. apply word_land_ones.
  apply word_land_ones in Hx. apply word_land_ones in Hy.
  rewrite land_lxor_distr, Hx, Hy. reflexivity.
Qed.

Lemma word_lor x y : word x -> word y -> word (Z.lor x y).
Proof.
  intros Hx Hy. apply word_land_ones.
  apply word_land_ones in Hx. apply word_land_ones in Hy.
  rewrite Z.land_lor_distr_l, Hx, Hy. reflexivity.
Qed.

Lemma word_shiftr x k : 0 <= k -> word x -> word (Z.shiftr x k).
Proof.
  unfold word. intros Hk [H0 H1]. rewrite Z.shiftr_div_pow2 by exact Hk.
  assert (0 < 2 ^ k) by (apply Z.pow_pos_nonneg; lia).
  split.
  - apply Z.div_pos; lia.
  - apply Z.le_lt_trans with x; [|exact H1].
    apply Z.div_le_upper_bound; nia.
Qed.

Lemma mod_land_mask z k : word k -> Z.land (z mod 2 ^ 32) k = Z.land z k.
Proof.
  intros Hk. apply word_land_ones in Hk.
  rewrite <- Z.land_ones by lia.
  rewrite <- Z.land_assoc, (Z.land_comm (Z.ones 32)), Hk. reflexivity.
Qed.

Lemma land_1_odd y : Z.land y 1 = if Z.odd y then 1 else 0.
Proof.
  change 1 with (Z.ones 1) at 1. rewrite Z.land_ones by lia.
  change (2 ^ 1) with 2. apply Zmod_odd.
Qed.

End words.

(** ** The engine computes the reference sequence *)

Section engine_vs_reference.

Import mt19937.

(** Closed facts about the masks, by computation. *)
Ltac word_const := unfold word; vm_compute; intuition congruence.

Lemma wrap_land z : wrap z = Z.land z 0xffffffff.
Proof. unfold wrap, word_size. symmetry. apply (Z.land_ones z 32). lia. Qed.

Lemma twist_reference (win : list Z) :
  twist (win !!! O) (win !!! 1%nat) (win !!! shift_size)
  = reference.next_word win.
Proof.
  unfold twist, reference.next_word, rshift.
  change upper_mask with reference.UPPER_MASK.
  change lower_mask with reference.LOWER_MASK.
  change shift_size with reference.M.
  set (y := Z.lor _ _). rewrite land_1_odd.
  destruct (Z.odd y); reflexivity.
Qed.

Lemma twist_word x0 x1 xm : word xm -> word (twist x0 x1 xm).
Proof.
  intros Hm. unfold twist, rshift.
  assert (Hy : word (Z.lor (Z.land x0 upper_mask) (Z.land x1 lower_mask))).
  { apply word_lor; apply word_land_mask; word_const. }
  set (y := Z.lor _ _) in *. rewrite land_1_odd.
  apply word_lxor; [apply word_lxor; [exact Hm | apply word_shiftr; [lia | exact Hy]] |].
  destruct (Z.odd y); word_const.
Qed.

Lemma temper_reference x : word x -> temper x = reference.tempering x.
Proof.
  intros Hx. unfold temper, reference.tempering, rshift, lshift_w, wrap.
  change (2 ^ word_size) with (2 ^ 32).
  change tempering_u with 11. change tempering_d with (Z.ones 32).
  rewrite (proj1 (word_land_ones (Z.shiftr x 11)))
    by (apply word_shiftr; [lia | exact Hx]).
  rewrite !mod_land_mask by (word_const).
  reflexivity.
Qed.

Lemma temper_word x : word x -> word (temper x).
Proof.
  intros Hx. rewrite temper_reference by exact Hx. unfold reference.tempering.
  assert (H1 : word (Z.lxor x (Z.shiftr x 11))).
  { apply word_lxor; [exact Hx | apply word_shiftr; [lia | exact Hx]]. }
  set (y1 := Z.lxor x _) in *.
  assert (H2 : word (Z.lxor y1 (Z.land (Z.shiftl y1 7) 0x9d2c5680))).
  { apply word_lxor; [exact H1 | apply word_land_mask; word_const]. }
  set (y2 := Z.lxor y1 _) in *.
  assert (H3 : word (Z.lxor y2 (Z.land (Z.shiftl y2 15) 0xefc60000))).
  { apply word_lxor; [exact H2 | apply word_land_mask; word_const]. }
  set (y3 := Z.lxor y2 _) in *.
  apply word_lxor; [exact H3 | apply word_shiftr; [lia | exact H3]].
Qed.

(** *** Seeding *)

Lemma seed_fill_reference k i prev :
  (i + k <= state_size)%nat ->
  seed_fill k i prev = reference.init_rest k i prev.
Proof.
  revert i prev. induction k as [|k IH]; intros i prev Hik; [reflexivity|].
  cbn [seed_fill reference.init_rest].
  assert (Hx : seed_next i prev
               = Z.land (1812433253 * Z.lxor prev (Z.shiftr prev 30)
                         + Z.of_nat i) 0xffffffff).
  { unfold seed_next. rewrite wrap_land, Nat.mod_small by lia. reflexivity. }
  rewrite Hx. f_equal. apply IH. lia.
Qed.

Lemma seed_reference value :
  state_vector (seed value) = reference.init value.
Proof.
  unfold seed, reference.init. cbv zeta. cbn [state_vector].
  rewrite wrap_land. f_equal.
  change reference.N with state_size.
  apply seed_fill_reference. unfold state_size. lia.
Qed.

Lemma seed_fill_length k i prev : length (seed_fill k i prev) = k.
Proof.
  revert i prev. induction k as [|k IH]; intros i prev; [reflexivity|].
  cbn [seed_fill length]. rewrite IH. reflexivity.
Qed.

Lemma seed_fill_word k i prev : Forall word (seed_fill k i prev).
Proof.
  revert i prev. induction k as [|k IH]; intros i prev; cbn [seed_fill].
  - constructor.
  - constructor; [apply word_mod | apply IH].
Qed.

Lemma seed_wf value : wf (seed value).
Proof.
  unfold wf, seed. cbv zeta. cbn [state_vector index].
  split; [|split].
  - cbn [length]. rewrite seed_fill_length. unfold state_size. lia.
  - lia.
  - constructor; [apply word_mod | apply seed_fill_word].
Qed.

(** *** The state vector is a circular buffer over the window *)

Lemma sizes : (1 < state_size /\ 0 < shift_size < state_size)%nat.
Proof. unfold state_size, shift_size. lia. Qed.

Lemma rotated_lookup (b : list Z) (k j : nat) :
  (k <= length b)%nat -> (j < length b)%nat ->
  (drop k b ++ take k b) !!! j = b !!! ((k + j) mod length b)%nat.
Proof.
  intros Hk Hj. destruct (le_lt_dec (length b) (k + j)) as [Hge|Hlt].
  - rewrite lookup_total_app_r by (rewrite length_drop; lia).
    rewrite length_drop, lookup_total_take_lt by lia.
    f_equal.
    apply Nat.mod_unique with (q := 1%nat); lia.
  - rewrite lookup_total_app_l by (rewrite length_drop; lia).
    rewrite lookup_total_drop, Nat.mod_small by lia. reflexivity.
Qed.

Lemma refill_at_slide (b : list Z) (k : nat) :
  length b = state_size -> (k < state_size)%nat ->
  let b' := refill_at b k in
  drop (S k) b' ++ take (S k) b'
  = reference.slide (drop k b ++ take k b).
Proof.
  intros Hlen Hk b'. pose proof sizes as [Hn [Hm0 Hm]].
  set (win := drop k b ++ take k b).
  assert (Hv : b' = <[k := reference.next_word win]> b).
  { unfold b', refill_at. f_equal. rewrite <- twist_reference.
    unfold win. rewrite !rotated_lookup by lia. rewrite Hlen.
    rewrite Nat.add_0_r, (Nat.mod_small k) by lia. reflexivity. }
  rewrite Hv. unfold reference.slide.
  rewrite drop_insert_lt by lia.
  assert (Hget : <[k := reference.next_word win]> b !! k
                 = Some (reference.next_word win)).
  { apply list_lookup_insert_eq. lia. }
  rewrite (take_S_r _ _ _ Hget), take_insert_ge by lia.
  rewrite app_assoc. f_equal.
  unfold win.
  destruct (lookup_lt_is_Some_2 b k ltac:(lia)) as [x Hx].
  rewrite (drop_S _ _ _ Hx). reflexivity.
Qed.

Lemma refill_prefix (a : list Z) (k : nat) :
  length a = state_size -> (k <= state_size)%nat ->
  length (foldl refill_at a (seq 0 k)) = state_size
  /\ drop k (foldl refill_at a (seq 0 k)) ++ take k (foldl refill_at a (seq 0 k))
     = Nat.iter k reference.slide a.
Proof.
  intros Hlen. induction k as [|k IH]; intros Hk.
  - split; [exact Hlen|]. cbn. apply app_nil_r.
  - destruct IH as [IHlen IHwin]; [lia|].
    rewrite seq_S, foldl_app. cbn [foldl Nat.add].
    generalize dependent (foldl refill_at a (seq 0 k)). intros c IHlen IHwin.
    split.
    + unfold refill_at. rewrite length_insert. exact IHlen.
    + rewrite refill_at_slide by (assumption || lia).
      rewrite IHwin. reflexivity.
Qed.

Lemma gen_rand_spec a :
  length a = state_size ->
  length (gen_rand a) = state_size
  /\ gen_rand a = Nat.iter state_size reference.slide a.
Proof.
  intros Hlen. unfold gen_rand.
  pose proof (refill_prefix a state_size Hlen (le_n _)) as [Hl Hw].
  generalize dependent (foldl refill_at a (seq 0 state_size)).
  intros b Hl Hw. split; [exact Hl|].
  rewrite <- Hw, (drop_ge b), (take_ge b) by lia. reflexivity.
Qed.

(** *** Windows *)

Lemma next_word_word win : window win -> word (reference.next_word win).
Proof.
  intros [Hlen Hw]. rewrite <- twist_reference. apply twist_word.
  apply Forall_lookup_total_1; [exact Hw|]. pose proof sizes. lia.
Qed.

Lemma slide_window win : window win -> window (reference.slide win).
Proof.
  intros Hwin. pose proof (next_word_word win Hwin) as Hx.
  destruct Hwin as [Hlen Hw]. pose proof sizes as Hs.
  unfold reference.slide. destruct win as [|x0 win]; cbn [length] in Hlen; [lia|].
  cbn [tl]. split.
  - rewrite length_app. cbn [length]. lia.
  - apply Forall_app. split; [|constructor; [exact Hx | constructor]].
    inversion Hw; assumption.
Qed.

Lemma iter_slide_window k win :
  window win -> window (Nat.iter k reference.slide win).
Proof.
  intros Hwin. induction k as [|k IH]; [exact Hwin|].
  rewrite Nat.iter_succ. apply slide_window, IH.
Qed.

Lemma iter_shift {A} (f : A -> A) k x :
  Nat.iter k f (f x) = Nat.iter (S k) f x.
Proof.
  symmetry. apply Nat.iter_succ_r.
Qed.

Lemma slide_lookup win j :
  (S j < length win)%nat -> reference.slide win !!! j = win !!! S j.
Proof.
  intros Hj. unfold reference.slide.
  rewrite lookup_total_app_l by (destruct win; cbn [tl length] in *; lia).
  apply lookup_total_tail.
Qed.

Lemma slide_last win :
  (0 < length win)%nat ->
  reference.slide win !!! (length win - 1)%nat = reference.next_word win.
Proof.
  intros Hlen. unfold reference.slide.
  assert (Htl : length (tl win) = (length win - 1)%nat)
    by (destruct win; cbn [tl length] in *; lia).
  rewrite lookup_total_app_r by lia.
  rewrite Htl, Nat.sub_diag. reflexivity.
Qed.

Lemma iter_slide_lookup k win j :
  window win -> (j + k < state_size)%nat ->
  Nat.iter k reference.slide win !!! j = win !!! (j + k)%nat.
Proof.
  intros Hwin. revert j. induction k as [|k IH]; intros j Hj.
  - rewrite Nat.add_0_r. reflexivity.
  - rewrite Nat.iter_succ.
    rewrite slide_lookup by (rewrite (proj1 (iter_slide_window k win Hwin)); lia).
    rewrite IH by lia. f_equal. lia.
Qed.

(** *** Simulation: the state vector runs ahead of the window *)

Lemma sim_seed value : sim (seed value) (reference.init value).
Proof.
  pose proof (seed_wf value) as [Hlen [_ Hw]].
  rewrite seed_reference in Hlen, Hw.
  split; [split; assumption|]. split.
  - unfold seed. cbn [index]. lia.
  - rewrite seed_reference. unfold seed. cbv zeta. cbn [index].
    rewrite Nat.sub_diag. reflexivity.
Qed.

Lemma sim_generate e win :
  sim e win ->
  fst (generate e) = reference.tempering (reference.next_word win)
  /\ sim (snd (generate e)) (reference.slide win).
Proof.
  intros [Hwin [Hp Hx]]. pose proof sizes as Hs.
  pose proof (slide_window win Hwin) as Hwin'.
  unfold generate. cbn [fst snd].
  set (refill := (state_size <=? index e)%nat).
  set (x := if refill then gen_rand (state_vector e) else state_vector e).
  set (p := if refill then O else index e).
  assert (Hpx : (p < state_size)%nat
                /\ x = Nat.iter (state_size - S p) reference.slide
                         (reference.slide win)).
  { unfold x, p, refill. destruct (Nat.leb_spec state_size (index e)) as [Hge|Hlt].
    - split; [lia|]. replace (index e) with state_size in Hx by lia.
      rewrite Nat.sub_diag in Hx. change (state_vector e = win) in Hx. rewrite Hx.
      rewrite (proj2 (gen_rand_spec win (proj1 Hwin))).
      rewrite iter_shift. f_equal; lia.
    - split; [lia|]. rewrite Hx, iter_shift. f_equal; lia. }
  destruct Hpx as [Hplt Hxeq]. split.
  - rewrite Hxeq, iter_slide_lookup by (assumption || lia).
    replace (p + (state_size - S p))%nat
      with (length win - 1)%nat by (rewrite (proj1 Hwin); lia).
    rewrite slide_last by (rewrite (proj1 Hwin); lia).
    apply temper_reference, next_word_word, Hwin.
  - split; [exact Hwin'|]. cbn [index state_vector]. split; [lia|exact Hxeq].
Qed.

Lemma sim_discard k : forall e win,
  sim e win -> sim (discard k e) (Nat.iter k reference.slide win).
Proof.
  induction k as [|k IH]; intros e win Hsim; [exact Hsim|].
  cbn [discard]. rewrite <- iter_shift.
  apply IH, sim_generate, Hsim.
Qed.

(** Draw number [k] of a freshly seeded engine is reference output [k]. *)
Lemma generate_reference value k :
  fst (generate (discard k (seed value))) = reference.output value k.
Proof.
  unfold reference.output.
  apply sim_generate, sim_discard, sim_seed.
Qed.

(** *** The class invariant is kept, and draws are 32-bit values *)

Lemma refill_at_wf x k :
  length x = state_size -> Forall word x ->
  length (refill_at x k) = state_size /\ Forall word (refill_at x k).
Proof.
  intros Hlen Hw. unfold refill_at. split.
  - rewrite length_insert. exact Hlen.
  - apply Forall_insert; [exact Hw|]. apply twist_word.
    apply Forall_lookup_total_1; [exact Hw|].
    rewrite Hlen. apply Nat.mod_upper_bound. pose proof sizes. lia.
Qed.

Lemma foldl_refill_wf ks : forall x,
  length x = state_size -> Forall word x ->
  length (foldl refill_at x ks) = state_size
  /\ Forall word (foldl refill_at x ks).
Proof.
  induction ks as [|k ks IH]; intros x Hlen Hw; cbn [foldl]; [split; assumption|].
  destruct (refill_at_wf x k Hlen Hw) as [Hl' Hw']. apply IH; assumption.
Qed.

Lemma generate_wf e :
  wf e -> word (fst (generate e)) /\ wf (snd (generate e)).
Proof.
  intros [Hlen [Hp Hw]]. pose proof sizes as Hs.
  unfold generate. cbn [fst snd].
  set (refill := (state_size <=? index e)%nat).
  set (x := if refill then gen_rand (state_vector e) else state_vector e).
  set (p := if refill then O else index e).
  assert (Hx : length x = state_size /\ Forall word x).
  { unfold x. destruct refill; [|split; assumption].
    apply foldl_refill_wf; assumption. }
  assert (Hplt : (p < state_size)%nat).
  { unfold p, refill. destruct (Nat.leb_spec state_size (index e)); lia. }
  destruct Hx as [Hxl Hxw]. split.
  - apply temper_word. apply Forall_lookup_total_1; [exact Hxw | lia].
  - unfold wf. cbn [state_vector index]. split; [exact Hxl|]. split; [lia|exact Hxw].
Qed.

Lemma wf_b_spec e : wf_b e = true -> wf e.
Proof.
  unfold wf_b, wf. intros H.
  apply andb_prop in H as [H Hw]. apply andb_prop in H as [Hl Hp].
  apply Nat.eqb_eq in Hl. apply Nat.leb_le in Hp.
  split; [exact Hl|]. split; [exact Hp|].
  rewrite forallb_forall in Hw. apply Forall_forall. intros x Hx.
  apply list_elem_of_In in Hx.
  specialize (Hw x Hx). apply andb_prop in Hw as [H0 H1].
  apply Z.leb_le in H0. apply Z.ltb_lt in H1. lia.
Qed.

Lemma discard_wf k : forall e, wf e -> wf (discard k e).
Proof.
  induction k as [|k IH]; intros e He; [exact He|].
  cbn [discard]. apply IH, generate_wf, He.
Qed.

End engine_vs_reference.

(** ** Sequential behaviour of the two methods *)

Section sequential.

Variable rtd : Z.
Hypothesis rtd_ge : 32 <= rtd.

Lemma next_unlocked st :
  m_mutex st = unlocked ->
  next st = Some (static_cast_unsigned_int (fst (mt19937.generate (m_e st))),
                  {| m_e := snd (mt19937.generate (m_e st));
                     m_mutex := unlocked |}).
Proof.
  intros Hm. unfold next, lock_guard, bind, lock, engine_call, unlock, ret.
  rewrite Hm. cbn [m_e m_mutex].
  destruct (mt19937.generate (m_e st)) as [v e]. reflexivity.
Qed.

Lemma set_seed_unlocked seed st :
  m_mutex st = unlocked ->
  set_seed rtd seed st
  = Some (tt, {| m_e := mt19937.seed (static_cast_result_type rtd seed);
                 m_mutex := unlocked |}).
Proof.
  intros Hm. unfold set_seed, lock_guard, bind, lock, engine_seed, unlock, ret.
  rewrite Hm. reflexivity.
Qed.

Lemma next_locked st : m_mutex st = locked -> next st = None.
Proof.
  intros Hm. unfold next, lock_guard, bind, lock. rewrite Hm. reflexivity.
Qed.

Lemma set_seed_locked seed st :
  m_mutex st = locked -> set_seed rtd seed st = None.
Proof.
  intros Hm. unfold set_seed, lock_guard, bind, lock. rewrite Hm. reflexivity.
Qed.

Lemma stream_S e n :
  stream e (S n)
  = static_cast_unsigned_int (fst (mt19937.generate e))
    :: stream (snd (mt19937.generate e)) n.
Proof.
  unfold stream. cbn [seq map mt19937.discard]. f_equal.
  rewrite <- seq_shift, map_map. reflexivity.
Qed.

Lemma draws_unlocked n : forall st,
  m_mutex st = unlocked ->
  draws n st = Some (stream (m_e st) n,
                     {| m_e := mt19937.discard n (m_e st);
                        m_mutex := unlocked |}).
Proof.
  induction n as [|n IH]; intros st Hm.
  - destruct st as [e m]. cbn in Hm. subst m. reflexivity.
  - cbn [draws]. unfold bind at 1. rewrite next_unlocked by exact Hm.
    unfold bind at 1. rewrite IH by reflexivity.
    cbn [m_e mt19937.discard]. rewrite stream_S. reflexivity.
Qed.

Lemma static_cast_result_type_wrap z :
  mt19937.wrap (static_cast_result_type rtd z) = mt19937.wrap z.
Proof.
  unfold mt19937.wrap, static_cast_result_type, mt19937.word_size.
  apply Z.mod_mod_divide.
  exists (2 ^ (rtd - 32)). rewrite <- Z.pow_add_r by lia. f_equal. lia.
Qed.

Lemma seed_wrap a b :
  mt19937.wrap a = mt19937.wrap b -> mt19937.seed a = mt19937.seed b.
Proof. intros H. unfold mt19937.seed. rewrite H. reflexivity. Qed.

Lemma seed_static_cast z :
  mt19937.seed (static_cast_result_type rtd z) = mt19937.seed z.
Proof. apply seed_wrap, static_cast_result_type_wrap. Qed.

Lemma static_cast_unsigned_int_word z :
  word z -> static_cast_unsigned_int z = z.
Proof. intros H. apply Z.mod_small. exact H. Qed.

Lemma stream_wf e n :
  mt19937.wf e ->
  stream e n = map (fun k => fst (mt19937.generate (mt19937.discard k e))) (seq 0 n).
Proof.
  intros He. unfold stream. apply map_ext. intros k.
  apply static_cast_unsigned_int_word.
  apply generate_wf, discard_wf, He.
Qed.

Lemma stream_seed value n :
  stream (mt19937.seed value) n = reference.outputs value n.
Proof.
  rewrite stream_wf by apply seed_wf. unfold reference.outputs.
  apply map_ext. intros k. apply generate_reference.
Qed.

Lemma stream_length e n : length (stream e n) = n.
Proof. unfold stream. rewrite length_map, length_seq. reflexivity. Qed.

Lemma set_seed_draws seed n st :
  m_mutex st = unlocked ->
  (set_seed rtd seed ;;; draws n) st
  = Some (reference.outputs seed n,
          {| m_e := mt19937.discard n (mt19937.seed seed);
             m_mutex := unlocked |}).
Proof.
  intros Hm. unfold bind. rewrite set_seed_unlocked by exact Hm.
  rewrite draws_unlocked by reflexivity. cbn [m_e].
  rewrite seed_static_cast, stream_seed. reflexivity.
Qed.

(** The value ISO C++ requires of the 10000th draw of a default-constructed
    [std::mt19937]. *)
Example mt19937_conformance :
  fst (mt19937.generate
         (mt19937.discard (99 * 101) (mt19937.seed mt19937.default_seed)))
  = 4123659995.
Proof. vm_compute. reflexivity. Qed.

Lemma outputs_42 :
  reference.outputs 42 3 = [1608637542; 3421126067; 4083286876].
Proof. vm_compute. reflexivity. Qed.

(** C1. After [set_seed(s)], [n] sequential [next()] calls return exactly
    the first [n] outputs of the reference MT19937 seeded with [s]; hence the
    same procedure started from any other state of the statics returns the
    same values, and after [set_seed(42)] the first three values are
    1608637542, 3421126067, 4083286876. *)
Theorem set_seed_then_draws_reference st st' seed n :
  m_mutex st = unlocked -> m_mutex st' = unlocked ->
  fst <$> (set_seed rtd seed ;;; draws n) st = Some (reference.outputs seed n)
  /\ fst <$> (set_seed rtd seed ;;; draws n) st'
     = fst <$> (set_seed rtd seed ;;; draws n) st
  /\ fst <$> (set_seed rtd 42 ;;; draws 3) st
     = Some [1608637542; 3421126067; 4083286876].
Proof.
  intros Hm Hm'. rewrite !set_seed_draws by assumption.
  cbn [fmap option_fmap option_map fst]. rewrite outputs_42. auto.
Qed.

(** C2. [set_seed(s)], [k] draws, [set_seed(s)] again and [k] more draws:
    the two sequences of draws are identical, whatever the state before the
    first reseed. *)
Theorem reseed_repeats_draws st seed k :
  m_mutex st = unlocked ->
  exists vs st',
    (set_seed rtd seed ;;; first <- draws k ;;
     set_seed rtd seed ;;; second <- draws k ;; ret (first, second)) st
    = Some ((vs, vs), st').
Proof.
  intros Hm. exists (reference.outputs seed k). eexists.
  unfold bind at 1. rewrite set_seed_unlocked by exact Hm.
  unfold bind at 1. rewrite draws_unlocked by reflexivity.
  pose proof (set_seed_draws seed k
                {| m_e := mt19937.discard k
                            (m_e {| m_e := mt19937.seed (static_cast_result_type rtd seed);
                                    m_mutex := unlocked |});
                   m_mutex := unlocked |} eq_refl) as H2.
  unfold bind in H2 |- *.
  destruct (set_seed rtd seed _) as [[[] st1]|]; [|discriminate].
  rewrite H2. unfold ret. cbn [m_e].
  rewrite seed_static_cast, stream_seed. reflexivity.
Qed.

(** C3. Whatever the engine held before, [set_seed(s)] leaves it in the
    MT19937 initialisation state of [s], so two runs that reseed with [s]
    from different prior states hold equal statics afterwards and deliver
    the same values on every number of later draws. *)
Theorem set_seed_overwrites st1 st2 seed :
  m_mutex st1 = unlocked -> m_mutex st2 = unlocked ->
  set_seed rtd seed st1
  = Some (tt, {| m_e := mt19937.seed seed; m_mutex := unlocked |})
  /\ set_seed rtd seed st2 = set_seed rtd seed st1
  /\ forall n, (set_seed rtd seed ;;; draws n) st2
               = (set_seed rtd seed ;;; draws n) st1.
Proof.
  intros H1 H2. rewrite !set_seed_unlocked by assumption.
  rewrite seed_static_cast. repeat split.
  intros n. rewrite !set_seed_draws by assumption. reflexivity.
Qed.

(** C10. [set_seed(s1)] directly followed by [set_seed(s2)] leaves the
    statics as [set_seed(s2)] alone does; in particular two [set_seed(s)]
    in a row equal one. *)
Theorem set_seed_absorbs st s1 s2 :
  m_mutex st = unlocked ->
  (set_seed rtd s1 ;;; set_seed rtd s2) st = set_seed rtd s2 st
  /\ (set_seed rtd s2 ;;; set_seed rtd s2) st = set_seed rtd s2 st.
Proof.
  intros Hm. unfold bind.
  rewrite (set_seed_unlocked s1 st Hm), (set_seed_unlocked s2 st Hm).
  cbv beta iota. rewrite set_seed_unlocked by reflexivity. auto.
Qed.

Lemma stream_word e n : mt19937.wf e -> Forall word (stream e n).
Proof.
  intros He. unfold stream. apply Forall_map, Forall_forall. intros k _.
  cbv beta. rewrite static_cast_unsigned_int_word;
    apply generate_wf, discard_wf, He.
Qed.

Lemma do_call_unlocked c st :
  m_mutex st = unlocked ->
  exists r e, do_call rtd c st = Some (r, {| m_e := e; m_mutex := unlocked |})
              /\ (mt19937.wf (m_e st) -> mt19937.wf e).
Proof.
  intros Hm. destruct c as [|seed]; unfold do_call, bind, ret.
  - rewrite next_unlocked by exact Hm. do 2 eexists. split; [reflexivity|].
    intros He. apply generate_wf, He.
  - rewrite set_seed_unlocked by exact Hm. do 2 eexists. split; [reflexivity|].
    intros _. apply seed_wf.
Qed.

Lemma run_unlocked cs : forall st,
  m_mutex st = unlocked ->
  exists rs e, run rtd cs st = Some (rs, {| m_e := e; m_mutex := unlocked |})
               /\ length rs = length cs
               /\ (mt19937.wf (m_e st) -> mt19937.wf e).
Proof.
  induction cs as [|c cs IH]; intros st Hm.
  - exists [], (m_e st). destruct st as [e m]. cbn in Hm. subst m.
    split; [reflexivity|]. split; [reflexivity|]. cbn [m_e]. auto.
  - destruct (do_call_unlocked c st Hm) as (r & e1 & Hc & Hwf1).
    destruct (IH {| m_e := e1; m_mutex := unlocked |} eq_refl)
      as (rs & e2 & Hr & Hlen & Hwf2).
    exists (r :: rs), e2. cbn [run]. unfold bind at 1. rewrite Hc.
    unfold bind at 1. rewrite Hr. unfold ret. cbn [length].
    split; [reflexivity|]. split; [lia|]. auto.
Qed.

(** Once [m_e] has been constructed, the statics hold an engine seeded from
    one value of [std::random_device]: it satisfies the engine's invariant
    with the mutex free, the next [next()] returns a 32-bit value, and as long
    as only [next()] is called the engine stays the successor of that single
    seeding. *)
Lemma constructed_engine_well_defined entropy :
  let st := statics_init rtd entropy in
  mt19937.wf (m_e st) /\ m_mutex st = unlocked
  /\ (exists v st', next st = Some (v, st') /\ 0 <= v < 2 ^ 32
                    /\ mt19937.wf (m_e st'))
  /\ forall n, exists vs st',
       draws n st = Some (vs, st') /\ Forall word vs
       /\ m_e st' = mt19937.discard n
                      (mt19937.seed (static_cast_result_type rtd entropy)).
Proof.
  intros st.
  assert (He : mt19937.wf (m_e st)) by apply seed_wf.
  split; [exact He|]. split; [reflexivity|]. split.
  - do 2 eexists. rewrite next_unlocked by reflexivity.
    split; [reflexivity|]. cbn [m_e].
    destruct (generate_wf (m_e st) He) as [Hv He'].
    rewrite static_cast_unsigned_int_word by exact Hv.
    split; [exact Hv | exact He'].
  - intros n. do 2 eexists. rewrite draws_unlocked by reflexivity.
    split; [reflexivity|]. split; [apply stream_word, He | reflexivity].
Qed.

Lemma stream_zero : stream (m_e statics_zero) 2 = [0; 0].
Proof. vm_compute. reflexivity. Qed.

(** C5. Nothing orders the construction of [m_e] before the first call. When
    [next()] is called twice before the dynamic initialisation of [m_e] has
    run, it works on the zero-initialised engine, which no seeding from
    [std::random_device] produces, and returns 0 and 0 whatever entropy the
    engine is constructed from afterwards; the engine is seeded only after
    that first use. *)
Theorem next_before_construction entropy :
  (vs <- draws 2 ;; construct_m_e rtd entropy ;;; ret vs) statics_zero
  = Some ([0; 0], statics_init rtd entropy)
  /\ forall entropy', m_e statics_zero <> m_e (statics_init rtd entropy').
Proof.
  split.
  - unfold bind at 1. rewrite draws_unlocked by reflexivity.
    rewrite stream_zero. reflexivity.
  - intros entropy' H. apply (f_equal mt19937.index) in H.
    unfold statics_zero, statics_init, mt19937.seed in H.
    cbn [m_e mt19937.index] in H. unfold mt19937.state_size in H.
    discriminate H.
Qed.

(** C6. With the mutex free, [next()] returns a value and [set_seed(seed)]
    completes for every seed, zero included, each leaving the mutex free
    again; so every finite sequence of calls completes with one result per
    call. *)
Theorem calls_are_total st seed cs :
  m_mutex st = unlocked ->
  (exists v st', next st = Some (v, st') /\ m_mutex st' = unlocked)
  /\ (exists st', set_seed rtd seed st = Some (tt, st') /\ m_mutex st' = unlocked)
  /\ (exists st', set_seed rtd 0 st = Some (tt, st') /\ m_mutex st' = unlocked)
  /\ (exists rs st', run rtd cs st = Some (rs, st') /\ m_mutex st' = unlocked
                     /\ length rs = length cs).
Proof.
  intros Hm. repeat split.
  - do 2 eexists. rewrite next_unlocked by exact Hm. split; reflexivity.
  - eexists. rewrite set_seed_unlocked by exact Hm. split; reflexivity.
  - eexists. rewrite set_seed_unlocked by exact Hm. split; reflexivity.
  - destruct (run_unlocked cs st Hm) as (rs & e & Hr & Hlen & _).
    exists rs. eexists. split; [exact Hr|]. split; [reflexivity | exact Hlen].
Qed.

(** C7. On an engine that satisfies its invariant, [next()] returns the
    value of exactly one engine draw, unchanged by the conversion to
    [unsigned int], within [0, 2^32 - 1], and leaves the engine advanced by
    that one draw. *)
Theorem next_returns_engine_output st :
  m_mutex st = unlocked -> mt19937.wf (m_e st) ->
  next st = Some (fst (mt19937.generate (m_e st)),
                  {| m_e := snd (mt19937.generate (m_e st));
                     m_mutex := unlocked |})
  /\ 0 <= fst (mt19937.generate (m_e st)) <= 2 ^ 32 - 1
  /\ static_cast_unsigned_int (fst (mt19937.generate (m_e st)))
     = fst (mt19937.generate (m_e st))
  /\ snd (mt19937.generate (m_e st)) = mt19937.discard 1 (m_e st)
  /\ mt19937.wf (snd (mt19937.generate (m_e st))).
Proof.
  intros Hm He. destruct (generate_wf (m_e st) He) as [Hv He'].
  pose proof (static_cast_unsigned_int_word _ Hv) as Hcast.
  rewrite next_unlocked by exact Hm. rewrite Hcast.
  unfold word in Hv.
  split; [reflexivity|]. split; [lia|]. split; [reflexivity|].
  split; [reflexivity | exact He'].
Qed.

(** C8. The statics are the engine and the mutex, nothing else. [next()]
    and [set_seed(seed)] change the engine only, the mutex being as before
    once the call is over, and what [set_seed] leaves behind is determined
    by the engine state the seed produces. *)
Theorem calls_change_engine_only st seed :
  m_mutex st = unlocked ->
  (exists v e, next st = Some (v, {| m_e := e; m_mutex := m_mutex st |}))
  /\ set_seed rtd seed st
     = Some (tt, {| m_e := mt19937.seed (static_cast_result_type rtd seed);
                    m_mutex := m_mutex st |})
  /\ forall seed',
       mt19937.seed (static_cast_result_type rtd seed')
       = mt19937.seed (static_cast_result_type rtd seed) ->
       set_seed rtd seed' st = set_seed rtd seed st.
Proof.
  intros Hm. split; [|split].
  - do 2 eexists. rewrite next_unlocked, Hm by exact Hm. reflexivity.
  - rewrite set_seed_unlocked, Hm by exact Hm. reflexivity.
  - intros seed' Heq. rewrite !set_seed_unlocked by exact Hm.
    rewrite Heq. reflexivity.
Qed.

(** C9. The engine the program starts with is the engine some explicit
    32-bit seed produces: for every entropy value there is [v] in
    [0, 2^32) such that [set_seed(v)] leaves exactly the initial statics. *)
Theorem implicit_seed_is_explicit_seed entropy :
  exists v, 0 <= v < 2 ^ 32
    /\ forall st, m_mutex st = unlocked ->
         set_seed rtd v st = Some (tt, statics_init rtd entropy).
Proof.
  exists (entropy mod 2 ^ 32). split; [apply Z.mod_pos_bound; lia|].
  intros st Hm. rewrite set_seed_unlocked by exact Hm.
  unfold statics_init. rewrite !seed_static_cast.
  rewrite (seed_wrap (entropy mod 2 ^ 32) entropy); [reflexivity|].
  unfold mt19937.wrap. change (2 ^ mt19937.word_size) with (2 ^ 32).
  apply Z.mod_mod. lia.
Qed.

End sequential.

(** ** Interleaved executions *)

Section concurrent.

Variable rtd : Z.

Lemma thread_step_sound st th st' th' :
  thread_step rtd st th = Some (st', th') -> thread_steps rtd st th st' th'.
Proof.
  unfold thread_step. intros H.
  destruct (at_pc th) as [|[|seed]|e|r] eqn:Hpc.
  - destruct (pending th) as [|c rest] eqn:Hpend; [discriminate|].
    unfold lock in H. destruct (m_mutex st) eqn:Hm; [|discriminate].
    injection H as <- <-. apply step_acquire; assumption.
  - injection H as <- <-. apply step_read; assumption.
  - unfold engine_seed in H. injection H as <- <-.
    apply step_reseed; assumption.
  - destruct (mt19937.generate e) as [v e'] eqn:Hg. injection H as <- <-.
    replace v with (fst (mt19937.generate e)) by (rewrite Hg; reflexivity).
    replace e' with (snd (mt19937.generate e)) by (rewrite Hg; reflexivity).
    apply step_write; assumption.
  - unfold unlock in H. injection H as <- <-. apply step_release; assumption.
Qed.

Lemma thread_step_complete st th st' th' :
  thread_steps rtd st th st' th' -> thread_step rtd st th = Some (st', th').
Proof.
  intros H. unfold thread_step.
  destruct H as [c rest Hpc Hpend Hm|Hpc|seed Hpc|e Hpc|r Hpc]; rewrite Hpc.
  - rewrite Hpend. unfold lock. rewrite Hm. reflexivity.
  - destruct st; reflexivity.
  - reflexivity.
  - destruct (mt19937.generate e); reflexivity.
  - reflexivity.
Qed.

Lemma sys_step_inv t sys sys' :
  sys_step rtd t sys = Some sys' ->
  exists th st' th',
    threads sys !! t = Some th
    /\ thread_steps rtd (statics sys) th st' th'
    /\ sys' = {| statics := st'; threads := <[t := th']> (threads sys) |}.
Proof.
  unfold sys_step. intros H.
  destruct (threads sys !! t) as [th|] eqn:Ht; [|discriminate].
  destruct (thread_step rtd (statics sys) th) as [[st' th']|] eqn:Hs;
    [|discriminate].
  injection H as <-. exists th, st', th'.
  split; [reflexivity|]. split; [apply thread_step_sound, Hs | reflexivity].
Qed.

(** *** Mutual exclusion *)

Lemma outside_dec p : {p = outside} + {p <> outside}.
Proof. destruct p; [left; reflexivity | right; discriminate ..]. Qed.

Lemma stepper_alone t sys th st' th' :
  serialized sys ->
  threads sys !! t = Some th -> thread_steps rtd (statics sys) th st' th' ->
  forall t' x, t' <> t -> threads sys !! t' = Some x -> at_pc x = outside.
Proof.
  intros (Hfree & Huniq & _) Ht Hstep t' x Hne Hx.
  destruct (outside_dec (at_pc x)) as [Ho|Hin]; [exact Ho|].
  (* the stepping thread is inside, so no other thread is *)
  pose (inside_twice_with := Huniq t' t x th Hx Ht Hin).
  destruct Hstep as [c rest Hpc Hpend Hm|Hpc|seed Hpc|e Hpc|r Hpc].
  - apply (Hfree Hm t' x Hx).
  - exfalso. apply Hne, inside_twice_with. rewrite Hpc. discriminate.
  - exfalso. apply Hne, inside_twice_with. rewrite Hpc. discriminate.
  - exfalso. apply Hne, inside_twice_with. rewrite Hpc. discriminate.
  - exfalso. apply Hne, inside_twice_with. rewrite Hpc. discriminate.
Qed.

Lemma lookup_updated (l : list thread) t th' t' x :
  <[t := th']> l !! t' = Some x ->
  (t' = t /\ x = th') \/ (t' <> t /\ l !! t' = Some x).
Proof.
  intros H. apply list_lookup_insert_Some in H as [(-> & -> & _)|[Hne Hx]].
  - left. auto.
  - right. auto.
Qed.

Lemma serialized_step t sys sys' :
  serialized sys /\ holder_inside sys ->
  sys_step rtd t sys = Some sys' ->
  serialized sys' /\ holder_inside sys'.
Proof.
  intros [Hser Hhold] Hstep.
  destruct (sys_step_inv t sys sys' Hstep) as (th & st' & th' & Ht & Hth & ->).
  pose proof (stepper_alone t sys th st' th' Hser Ht Hth) as Halone.
  pose proof (lookup_lt_Some _ _ _ Ht) as Hlt.
  destruct Hser as (Hfree & Huniq & Hread).
  assert (Hfree' : m_mutex st' = unlocked -> at_pc th' = outside).
  { intros Hm. destruct Hth as [c rest Hpc Hpend Hm0|Hpc|seed Hpc|e Hpc|r Hpc];
      cbn [m_mutex at_pc] in *; try discriminate; try reflexivity;
      specialize (Hfree Hm t th Ht); congruence. }
  assert (Hread' : forall e, at_pc th' = engine_read e -> e = m_e st').
  { intros e0 He0. destruct Hth as [c rest Hpc Hpend Hm0|Hpc|seed Hpc|e Hpc|r Hpc];
      cbn [at_pc m_e] in *; congruence. }
  assert (Hin' : m_mutex st' = locked -> at_pc th' <> outside).
  { intros Hm. destruct Hth as [c rest Hpc Hpend Hm0|Hpc|seed Hpc|e Hpc|r Hpc];
      cbn [at_pc m_mutex] in *; discriminate. }
  split; [split; [|split]|]; cbn [statics threads].
  - intros Hm t' x Hx.
    destruct (lookup_updated _ _ _ _ _ Hx) as [[-> ->]|[Hne Hx']].
    + apply Hfree', Hm.
    + apply (Halone t' x Hne Hx').
  - intros t1 t2 x1 x2 H1 H2 Hin1 Hin2.
    destruct (lookup_updated _ _ _ _ _ H1) as [[-> ->]|[Hne1 Hx1]];
      destruct (lookup_updated _ _ _ _ _ H2) as [[-> ->]|[Hne2 Hx2]];
      try reflexivity; exfalso.
    + apply Hin2, (Halone t2 x2 Hne2 Hx2).
    + apply Hin1, (Halone t1 x1 Hne1 Hx1).
    + apply Hin1, (Halone t1 x1 Hne1 Hx1).
  - intros t' x e Hx He.
    destruct (lookup_updated _ _ _ _ _ Hx) as [[-> ->]|[Hne Hx']].
    + apply Hread', He.
    + rewrite (Halone t' x Hne Hx') in He. discriminate.
  - intros Hm. exists t, th'. split; [|apply Hin', Hm].
    apply list_lookup_insert_eq, Hlt.
Qed.

Lemma serialized_spawn e programs :
  serialized (spawn e programs) /\ holder_inside (spawn e programs).
Proof.
  assert (Hout : forall t th, threads (spawn e programs) !! t = Some th ->
                              at_pc th = outside).
  { intros t th H. unfold spawn in H. cbn [threads] in H.
    change (map ?f ?l) with (f <$> l) in H.
    apply list_lookup_fmap_Some_1 in H as (p & -> & _). reflexivity. }
  split; [split; [|split]|].
  - intros _. exact Hout.
  - intros t1 t2 x1 x2 H1 _ Hin1 _. exfalso. apply Hin1, (Hout t1 x1 H1).
  - intros t x e' Hx He. rewrite (Hout t x Hx) in He. discriminate.
  - intros Hm. discriminate.
Qed.

Lemma serialized_run schedule : forall sys sys',
  serialized sys /\ holder_inside sys ->
  sys_run rtd schedule sys = Some sys' ->
  serialized sys' /\ holder_inside sys'.
Proof.
  induction schedule as [|t schedule IH]; intros sys sys' Hinv Hrun.
  - injection Hrun as <-. exact Hinv.
  - cbn [sys_run] in Hrun.
    destruct (sys_step rtd t sys) as [sys1|] eqn:Hstep; [|discriminate].
    apply (IH sys1 sys'); [|exact Hrun].
    apply (serialized_step t sys sys1 Hinv Hstep).
Qed.

(** *** No draw is lost or duplicated *)

Lemma discard_S_r k : forall e,
  mt19937.discard (S k) e = snd (mt19937.generate (mt19937.discard k e)).
Proof.
  induction k as [|k IH]; intros e; [reflexivity|].
  change (mt19937.discard (S (S k)) e)
    with (mt19937.discard (S k) (snd (mt19937.generate e))).
  rewrite IH. reflexivity.
Qed.

Lemma stream_S_r e k :
  stream e (S k)
  = stream e k ++ [static_cast_unsigned_int
                     (fst (mt19937.generate (mt19937.discard k e)))].
Proof. unfold stream. rewrite seq_S, map_app. reflexivity. Qed.

Lemma delivered_split (ths : list thread) t th th' :
  ths !! t = Some th ->
  delivered ths
  = delivered (take t ths) ++ values th ++ delivered (drop (S t) ths)
  /\ delivered (<[t := th']> ths)
     = delivered (take t ths) ++ values th' ++ delivered (drop (S t) ths).
Proof.
  intros Ht. pose proof (lookup_lt_Some _ _ _ Ht) as Hlt. unfold delivered.
  split.
  - rewrite <- (take_drop_middle ths t th Ht) at 1.
    rewrite map_app, concat_app. reflexivity.
  - rewrite insert_take_drop by exact Hlt.
    rewrite map_app, concat_app. reflexivity.
Qed.

Lemma delivered_same (ths : list thread) t th th' :
  ths !! t = Some th -> values th' = values th ->
  delivered (<[t := th']> ths) = delivered ths.
Proof.
  intros Ht Hv. destruct (delivered_split ths t th th' Ht) as [H1 H2].
  rewrite H2, H1, Hv. reflexivity.
Qed.

Lemma delivered_snoc (ths : list thread) t th th' v :
  ths !! t = Some th -> values th' = values th ++ [v] ->
  Permutation (delivered (<[t := th']> ths)) (delivered ths ++ [v])
  /\ length (delivered (<[t := th']> ths)) = S (length (delivered ths)).
Proof.
  intros Ht Hv. destruct (delivered_split ths t th th' Ht) as [H1 H2].
  rewrite H2, H1, Hv. split.
  - rewrite <- !app_assoc. do 2 apply Permutation_app_head.
    apply Permutation_app_comm.
  - rewrite !length_app. cbn [length]. lia.
Qed.

Lemma accounted_step e0 T C t sys sys' :
  serialized sys -> accounted e0 T C sys ->
  sys_step rtd t sys = Some sys' ->
  accounted e0 T C sys'.
Proof.
  intros (_ & _ & Hread) (Hlen & Hall & Heng & Hperm) Hstep.
  destruct (sys_step_inv t sys sys' Hstep) as (th & st' & th' & Ht & Hth & ->).
  destruct (Forall_lookup_1 _ _ _ _ Hall Ht) as [(Hpend & Hent & Hleave) Hbud].
  unfold accounted. cbn [statics threads]. rewrite length_insert.
  unfold budget in Hbud.
  destruct Hth as [c rest Hpc Hpend0 Hm|Hpc|seed Hpc|e Hpc|r Hpc].
  - (* the lock_guard is constructed *)
    rewrite Hpend0 in Hpend. inversion Hpend as [|c' rest' Hc Hrest]; subst c' rest'.
    assert (Hv : values {| pending := rest; at_pc := entered c;
                           returned := returned th |} = values th).
    { unfold values. cbn [returned at_pc]. rewrite Hpc. reflexivity. }
    rewrite (delivered_same _ t th _ Ht Hv).
    split; [exact Hlen|]. split; [|split; assumption].
    apply Forall_insert; [exact Hall|]. split.
    + split; [exact Hrest|]. split; [|discriminate].
      cbn [at_pc]. intros c0 [= <-]. symmetry. exact Hc.
    + unfold budget. rewrite Hv. cbn [pending at_pc].
      rewrite Hpc, Hpend0 in Hbud. cbn [length] in Hbud. lia.
  - (* the engine is read *)
    assert (Hv : values {| pending := pending th;
                           at_pc := engine_read (m_e (statics sys));
                           returned := returned th |} = values th).
    { unfold values. cbn [returned at_pc]. rewrite Hpc. reflexivity. }
    rewrite (delivered_same _ t th _ Ht Hv).
    split; [exact Hlen|]. split; [|split; assumption].
    apply Forall_insert; [exact Hall|]. split.
    + split; [exact Hpend|]. split; discriminate.
    + unfold budget. rewrite Hv. cbn [pending at_pc].
      rewrite Hpc in Hbud. exact Hbud.
  - (* a reseed: not in a program of next() calls *)
    specialize (Hent _ Hpc). discriminate.
  - (* the advanced engine is written *)
    set (v := static_cast_unsigned_int (fst (mt19937.generate e))).
    assert (Hv : values {| pending := pending th; at_pc := leaving (Some v);
                           returned := returned th |} = values th ++ [v]).
    { unfold values. cbn [returned at_pc result_values]. rewrite Hpc.
      rewrite app_nil_r. reflexivity. }
    destruct (delivered_snoc _ t th _ v Ht Hv) as [Hp' Hl'].
    assert (He : e = mt19937.discard (length (delivered (threads sys))) e0).
    { rewrite <- Heng. apply (Hread t th e Ht Hpc). }
    split; [exact Hlen|]. split; [|split].
    + apply Forall_insert; [exact Hall|]. split.
      * split; [exact Hpend|]. split; discriminate.
      * unfold budget. rewrite Hv, length_app. cbn [pending at_pc length].
        rewrite Hpc in Hbud. lia.
    + cbn [m_e]. rewrite Hl', discard_S_r, <- He. reflexivity.
    + rewrite Hl', stream_S_r, <- He. fold v.
      rewrite Hp'. apply Permutation_app_tail, Hperm.
  - (* the lock_guard is destroyed *)
    assert (Hv : values {| pending := pending th; at_pc := outside;
                           returned := returned th ++ result_values r |}
                 = values th).
    { unfold values. cbn [returned at_pc]. rewrite Hpc, app_nil_r. reflexivity. }
    rewrite (delivered_same _ t th _ Ht Hv).
    split; [exact Hlen|]. split; [|split; assumption].
    apply Forall_insert; [exact Hall|]. split.
    + split; [exact Hpend|]. split; discriminate.
    + unfold budget. rewrite Hv. cbn [pending at_pc].
      rewrite Hpc in Hbud. lia.
Qed.

Lemma accounted_spawn e0 T C :
  accounted e0 T C (spawn e0 (replicate T (replicate C call_next))).
Proof.
  unfold accounted, spawn. cbn [statics threads m_e].
  set (mk := fun p => {| pending := p; at_pc := outside; returned := [] |}).
  assert (Hd : delivered (map mk (replicate T (replicate C call_next))) = []).
  { induction T as [|T IH]; [reflexivity|]. cbn [replicate map].
    unfold delivered in *. cbn [map concat]. rewrite IH. reflexivity. }
  rewrite Hd. cbn [length mt19937.discard].
  split; [rewrite length_map, length_replicate; reflexivity|].
  split; [|split; [reflexivity | constructor]].
  change (map mk ?l) with (mk <$> l).
  apply Forall_fmap, Forall_replicate. unfold compose, mk. split.
  - split; [apply Forall_replicate_eq|]. split; discriminate.
  - unfold budget, values. cbn [pending at_pc returned app].
    rewrite length_replicate. cbn [length]. lia.
Qed.

Lemma accounted_run e0 T C schedule : forall sys sys',
  serialized sys /\ holder_inside sys -> accounted e0 T C sys ->
  sys_run rtd schedule sys = Some sys' ->
  accounted e0 T C sys'.
Proof.
  induction schedule as [|t schedule IH]; intros sys sys' Hinv Hacc Hrun.
  - injection Hrun as <-. exact Hacc.
  - cbn [sys_run] in Hrun.
    destruct (sys_step rtd t sys) as [sys1|] eqn:Hstep; [|discriminate].
    apply (IH sys1 sys'); [| |exact Hrun].
    + apply (serialized_step t sys sys1 Hinv Hstep).
    + apply (accounted_step e0 T C t sys sys1 (proj1 Hinv) Hacc Hstep).
Qed.

Lemma finished_delivered C (ths : list thread) :
  Forall (fun th => pending th = [] /\ at_pc th = outside) ths ->
  Forall (fun th => next_only th /\ budget C th) ths ->
  delivered ths = concat (map returned ths)
  /\ length (delivered ths) = (length ths * C)%nat.
Proof.
  unfold delivered. induction 1 as [|th ths [Hp Ho] _ IH]; intros Hall.
  - split; reflexivity.
  - inversion Hall as [|? ? [_ Hb] Hrest]; subst.
    destruct (IH Hrest) as [IH1 IH2].
    assert (Hv : values th = returned th).
    { unfold values. rewrite Ho. apply app_nil_r. }
    unfold budget in Hb. rewrite Hp, Ho, Hv in Hb. cbn [length] in Hb.
    cbn [map concat length]. rewrite Hv, IH1, length_app, <- IH1, IH2.
    split; [reflexivity | lia].
Qed.

Lemma finished_unlocked sys :
  serialized sys /\ holder_inside sys -> finished sys ->
  m_mutex (statics sys) = unlocked.
Proof.
  intros [_ Hhold] Hfin. destruct (m_mutex (statics sys)) eqn:Hm; [reflexivity|].
  destruct (Hhold Hm) as (t & th & Ht & Hin).
  destruct (Forall_lookup_1 _ _ _ _ Hfin Ht) as [_ Ho]. contradiction.
Qed.

(** *** Progress: some thread can always step until all are done *)

Lemma inside_steps st th :
  at_pc th <> outside -> exists st' th', thread_step rtd st th = Some (st', th').
Proof.
  intros Hin. unfold thread_step.
  destruct (at_pc th) as [|[|seed]|e|r]; [contradiction| | | |];
    try destruct (mt19937.generate e); do 2 eexists; reflexivity.
Qed.

Lemma runnable_or_finished (ths : list thread) :
  Forall (fun th => pending th = [] /\ at_pc th = outside) ths
  \/ exists t th, ths !! t = Some th
                  /\ (at_pc th <> outside \/ pending th <> []).
Proof.
  induction ths as [|th ths IH]; [left; constructor|].
  destruct (outside_dec (at_pc th)) as [Ho|Hin].
  - destruct (pending th) as [|c rest] eqn:Hp.
    + destruct IH as [IH|(t & x & Ht & Hx)].
      * left. constructor; auto.
      * right. exists (S t), x. auto.
    + right. exists O, th. split; [reflexivity|]. right. rewrite Hp. discriminate.
  - right. exists O, th. auto.
Qed.

Lemma progress sys :
  holder_inside sys ->
  finished sys \/ exists t sys', sys_step rtd t sys = Some sys'.
Proof.
  intros Hhold.
  destruct (runnable_or_finished (threads sys)) as [Hfin|(t & th & Ht & Hrun)];
    [left; exact Hfin|]. right.
  assert (Hgo : forall t th, threads sys !! t = Some th -> at_pc th <> outside ->
                             exists sys', sys_step rtd t sys = Some sys').
  { intros t0 th0 Ht0 Hin.
    destruct (inside_steps (statics sys) th0 Hin) as (st' & th' & Hs).
    eexists. unfold sys_step. rewrite Ht0, Hs. reflexivity. }
  destruct (outside_dec (at_pc th)) as [Ho|Hin].
  - destruct Hrun as [Hin|Hp]; [contradiction|].
    destruct (m_mutex (statics sys)) eqn:Hm.
    + exists t. unfold sys_step, thread_step, lock.
      rewrite Ht, Ho, Hm. destruct (pending th); [contradiction|].
      eexists. reflexivity.
    + destruct (Hhold Hm) as (t1 & th1 & Ht1 & Hin1).
      exists t1. apply (Hgo t1 th1 Ht1 Hin1).
  - exists t. apply (Hgo t th Ht Hin).
Qed.

(** *** A thread on its own runs the methods as written *)

Lemma thread_runs_next st th rest :
  at_pc th = outside -> pending th = call_next :: rest ->
  m_mutex st = unlocked ->
  exists v st',
    next st = Some (v, st')
    /\ thread_run rtd 4 st th
       = Some (st', {| pending := rest; at_pc := outside;
                       returned := returned th ++ [v] |}).
Proof.
  intros Hpc Hpend Hm. do 2 eexists.
  rewrite next_unlocked by exact Hm. split; [reflexivity|].
  cbn [thread_run]. unfold thread_step at 1. rewrite Hpc, Hpend.
  unfold lock. rewrite Hm.
  unfold thread_step at 1. cbn [at_pc pending returned m_e m_mutex].
  unfold thread_step at 1. cbn [at_pc pending returned m_e m_mutex].
  destruct (mt19937.generate (m_e st)) as [v e']. reflexivity.
Qed.

Lemma thread_runs_set_seed st th seed rest :
  at_pc th = outside -> pending th = call_set_seed seed :: rest ->
  m_mutex st = unlocked ->
  exists st',
    set_seed rtd seed st = Some (tt, st')
    /\ thread_run rtd 3 st th
       = Some (st', {| pending := rest; at_pc := outside;
                       returned := returned th ++ [] |}).
Proof.
  intros Hpc Hpend Hm. eexists.
  rewrite set_seed_unlocked by exact Hm. split; [reflexivity|].
  cbn [thread_run]. unfold thread_step at 1. rewrite Hpc, Hpend.
  unfold lock. rewrite Hm. reflexivity.
Qed.

(** C4. In every state any interleaving of any threads' calls can reach, at
    most one thread is inside the body of [next()] or [set_seed()], none while
    the mutex is free, and an engine value read by a thread is still the
    engine's when that thread writes it back. When [T] threads that each call
    [next()] [C] times are all done, the engine has advanced exactly [T * C]
    draws, and the values the threads returned are, as a multiset, those of
    [T * C] draws by a single thread from the same engine. *)
Theorem concurrent_calls_serialized e0 programs schedule sys :
  sys_run rtd schedule (spawn e0 programs) = Some sys ->
  serialized sys
  /\ forall T C,
       programs = replicate T (replicate C call_next) -> finished sys ->
       m_e (statics sys) = mt19937.discard (T * C) e0
       /\ exists vs,
            draws (T * C) (statics (spawn e0 programs)) = Some (vs, statics sys)
            /\ Permutation (concat (map returned (threads sys))) vs.
Proof.
  intros Hrun.
  pose proof (serialized_run schedule _ _ (serialized_spawn e0 programs) Hrun)
    as Hinv.
  split; [exact (proj1 Hinv)|].
  intros T C -> Hfin.
  pose proof (accounted_run e0 T C schedule _ _
                (serialized_spawn e0 _) (accounted_spawn e0 T C) Hrun)
    as (Hlen & Hall & Heng & Hperm).
  destruct (finished_delivered C (threads sys) Hfin Hall) as [Hd Hn].
  rewrite Hlen in Hn. rewrite Hn in Heng, Hperm. rewrite Hd in Hperm.
  split; [exact Heng|].
  exists (stream e0 (T * C)). split; [|exact Hperm].
  rewrite draws_unlocked by reflexivity. cbn [spawn statics m_e].
  pose proof (finished_unlocked sys Hinv Hfin) as Hm.
  destruct (statics sys) as [e m]. cbn [m_e m_mutex] in *. subst. reflexivity.
Qed.

End concurrent.

(** ** The statements at concrete inputs *)

Lemma set_seed_then_draws_reference_witness :
  fst <$> (set_seed 64 7 ;;; draws 2) (statics_init 64 1)
  = Some (reference.outputs 7 2)
  /\ fst <$> (set_seed 64 7 ;;; draws 2)
       {| m_e := mt19937.seed 3; m_mutex := unlocked |}
     = fst <$> (set_seed 64 7 ;;; draws 2) (statics_init 64 1)
  /\ fst <$> (set_seed 64 42 ;;; draws 3) (statics_init 64 1)
     = Some [1608637542; 3421126067; 4083286876].
Proof.
  apply (set_seed_then_draws_reference 64 ltac:(lia)); reflexivity.
Defined.

Lemma reseed_repeats_draws_witness :
  exists vs st',
    (set_seed 64 42 ;;; first <- draws 3 ;;
     set_seed 64 42 ;;; second <- draws 3 ;; ret (first, second))
      (statics_init 64 1)
    = Some ((vs, vs), st').
Proof.
  apply (reseed_repeats_draws 64 ltac:(lia)). reflexivity.
Defined.

Lemma set_seed_overwrites_witness :
  set_seed 64 42 (statics_init 64 1)
  = Some (tt, {| m_e := mt19937.seed 42; m_mutex := unlocked |})
  /\ set_seed 64 42 {| m_e := mt19937.seed 3; m_mutex := unlocked |}
     = set_seed 64 42 (statics_init 64 1)
  /\ forall n,
       (set_seed 64 42 ;;; draws n) {| m_e := mt19937.seed 3; m_mutex := unlocked |}
       = (set_seed 64 42 ;;; draws n) (statics_init 64 1).
Proof.
  apply (set_seed_overwrites 64 ltac:(lia)); reflexivity.
Defined.

Lemma set_seed_absorbs_witness :
  (set_seed 64 1 ;;; set_seed 64 2) (statics_init 64 0)
  = set_seed 64 2 (statics_init 64 0)
  /\ (set_seed 64 2 ;;; set_seed 64 2) (statics_init 64 0)
     = set_seed 64 2 (statics_init 64 0).
Proof.
  apply set_seed_absorbs. reflexivity.
Defined.

Lemma calls_are_total_witness :
  (exists v st', next (statics_init 64 1) = Some (v, st')
                 /\ m_mutex st' = unlocked)
  /\ (exists st', set_seed 64 4294967295 (statics_init 64 1) = Some (tt, st')
                  /\ m_mutex st' = unlocked)
  /\ (exists st', set_seed 64 0 (statics_init 64 1) = Some (tt, st')
                  /\ m_mutex st' = unlocked)
  /\ (exists rs st',
        run 64 [call_next; call_set_seed 0; call_next] (statics_init 64 1)
        = Some (rs, st')
        /\ m_mutex st' = unlocked
        /\ length rs = length [call_next; call_set_seed 0; call_next]).
Proof.
  apply calls_are_total. reflexivity.
Defined.

Lemma next_returns_engine_output_witness :
  mt19937.wf (m_e (statics_init 64 1))
  /\ next (statics_init 64 1)
     = Some (fst (mt19937.generate (m_e (statics_init 64 1))),
             {| m_e := snd (mt19937.generate (m_e (statics_init 64 1)));
                m_mutex := unlocked |})
  /\ 0 <= fst (mt19937.generate (m_e (statics_init 64 1))) <= 2 ^ 32 - 1.
Proof.
  assert (Hwf : mt19937.wf (m_e (statics_init 64 1)))
    by (apply wf_b_spec; vm_compute; reflexivity).
  split; [exact Hwf|].
  destruct (next_returns_engine_output (statics_init 64 1) eq_refl Hwf)
    as (Hnext & Hrange & _).
  split; [exact Hnext | exact Hrange].
Defined.

Lemma calls_change_engine_only_witness :
  (exists v e, next (statics_init 64 1)
               = Some (v, {| m_e := e; m_mutex := m_mutex (statics_init 64 1) |}))
  /\ set_seed 64 42 (statics_init 64 1)
     = Some (tt, {| m_e := mt19937.seed (static_cast_result_type 64 42);
                    m_mutex := m_mutex (statics_init 64 1) |})
  /\ forall seed',
       mt19937.seed (static_cast_result_type 64 seed')
       = mt19937.seed (static_cast_result_type 64 42) ->
       set_seed 64 seed' (statics_init 64 1) = set_seed 64 42 (statics_init 64 1).
Proof.
  apply calls_change_engine_only. reflexivity.
Defined.

Lemma implicit_seed_is_explicit_seed_witness :
  exists v, 0 <= v < 2 ^ 32
    /\ forall st, m_mutex st = unlocked ->
         set_seed 64 v st = Some (tt, statics_init 64 123456789).
Proof.
  apply (implicit_seed_is_explicit_seed 64 ltac:(lia)).
Defined.

Lemma demo_runs : sys_run 64 demo_schedule demo_start = Some demo_final.
Proof. vm_compute. reflexivity. Qed.

Lemma demo_finished : finished demo_final.
Proof. repeat constructor. Qed.

Lemma concurrent_calls_serialized_witness :
  sys_run 64 demo_schedule demo_start = Some demo_final
  /\ finished demo_final
  /\ serialized demo_final
  /\ m_e (statics demo_final)
     = mt19937.discard (2 * 2) (mt19937.seed mt19937.default_seed)
  /\ exists vs,
       draws (2 * 2) (statics demo_start) = Some (vs, statics demo_final)
       /\ Permutation (concat (map returned (threads demo_final))) vs.
Proof.
  split; [exact demo_runs|]. split; [exact demo_finished|].
  destruct (concurrent_calls_serialized 64 _ _ _ _ demo_runs) as [Hser Hdone].
  split; [exact Hser|].
  exact (Hdone 2%nat 2%nat eq_refl demo_finished).
Defined.

(** ** Further properties of the sequential methods *)

Section sequential_more.

Variable rtd : Z.

Lemma run_results_fit cs : forall st,
  m_mutex st = unlocked -> mt19937.wf (m_e st) ->
  exists rs st',
    run rtd cs st = Some (rs, st')
    /\ m_mutex st' = unlocked /\ mt19937.wf (m_e st')
    /\ Forall2 result_fits cs rs.
Proof.
  induction cs as [|c cs IH]; intros st Hm Hwf.
  - exists [], st. split; [reflexivity|]. split; [exact Hm|].
    split; [exact Hwf | constructor].
  - assert (Hc : exists r e1,
               do_call rtd c st = Some (r, {| m_e := e1; m_mutex := unlocked |})
               /\ mt19937.wf e1 /\ result_fits c r).
    { destruct c as [|seed]; unfold do_call, bind, ret.
      - rewrite next_unlocked by exact Hm.
        destruct (generate_wf (m_e st) Hwf) as [Hv He].
        do 2 eexists. split; [reflexivity|]. split; [exact He|].
        eexists. split; [reflexivity|].
        rewrite static_cast_unsigned_int_word by exact Hv. exact Hv.
      - rewrite set_seed_unlocked by exact Hm.
        do 2 eexists. split; [reflexivity|]. split; [apply seed_wf | reflexivity]. }
    destruct Hc as (r & e1 & Hc & Hwf1 & Hr).
    destruct (IH {| m_e := e1; m_mutex := unlocked |} eq_refl Hwf1)
      as (rs & st' & Hrun & Hm' & Hwf' & Hfit).
    exists (r :: rs), st'. cbn [run]. unfold bind at 1. rewrite Hc.
    unfold bind at 1. rewrite Hrun. unfold ret.
    split; [reflexivity|]. split; [exact Hm'|].
    split; [exact Hwf' | constructor; assumption].
Qed.

(** X6. Started from the statics the program begins with, every sequence of
    calls completes; each [next()] in it returns a value in [0, 2^32), each
    [set_seed()] returns nothing, and at the end the mutex is free and the
    engine satisfies its invariant. *)
Theorem calls_from_start_fit entropy cs :
  exists rs st',
    run rtd cs (statics_init rtd entropy) = Some (rs, st')
    /\ m_mutex st' = unlocked /\ mt19937.wf (m_e st')
    /\ Forall2 result_fits cs rs.
Proof. apply run_results_fit; [reflexivity | apply seed_wf]. Qed.

Hypothesis rtd_ge : 32 <= rtd.

Lemma seed_eq_wrap a b :
  mt19937.seed a = mt19937.seed b -> mt19937.wrap a = mt19937.wrap b.
Proof.
  unfold mt19937.seed. cbv zeta. intros H.
  apply (f_equal mt19937.state_vector) in H. cbn [mt19937.state_vector] in H.
  apply (f_equal (hd 0)) in H. cbn [hd] in H. exact H.
Qed.

(** X5. Two seeds leave the same statics exactly when they agree modulo
    2^32; so two different seeds of the 32-bit range always leave different
    engine states. *)
Theorem set_seed_same_iff st s1 s2 :
  m_mutex st = unlocked ->
  (set_seed rtd s1 st = set_seed rtd s2 st <-> s1 mod 2 ^ 32 = s2 mod 2 ^ 32)
  /\ (0 <= s1 < 2 ^ 32 -> 0 <= s2 < 2 ^ 32 -> s1 <> s2 ->
      set_seed rtd s1 st <> set_seed rtd s2 st).
Proof.
  intros Hm.
  assert (Hiff : set_seed rtd s1 st = set_seed rtd s2 st
                 <-> s1 mod 2 ^ 32 = s2 mod 2 ^ 32).
  { rewrite !set_seed_unlocked by exact Hm.
    rewrite !(seed_static_cast rtd rtd_ge). split.
    - intros H. apply seed_eq_wrap.
      apply (f_equal (fun o => match o with
                               | Some (_, st') => m_e st'
                               | None => mt19937.seed 0
                               end)) in H.
      cbv beta iota in H. cbn [m_e] in H. exact H.
    - intros H. rewrite (seed_wrap s1 s2 H). reflexivity. }
  split; [exact Hiff|].
  intros H1 H2 Hne Heq. apply Hiff in Heq.
  rewrite !Z.mod_small in Heq by assumption. contradiction.
Qed.

End sequential_more.

(** ** The width of the engine's result type does not matter *)

Section two_platforms.

Variables rtd1 rtd2 : Z.
Hypothesis rtd1_ge : 32 <= rtd1.
Hypothesis rtd2_ge : 32 <= rtd2.

Lemma set_seed_any_width seed st :
  set_seed rtd1 seed st = set_seed rtd2 seed st.
Proof.
  unfold set_seed, lock_guard, bind, lock.
  destruct (m_mutex st); [|reflexivity].
  unfold engine_seed.
  rewrite (seed_static_cast rtd1 rtd1_ge), (seed_static_cast rtd2 rtd2_ge).
  reflexivity.
Qed.

(** X7. On two platforms whose engine result types both have at least 32
    bits, equal entropy gives equal initial statics, and every sequence of
    calls returns the same results and leaves the same statics. *)
Theorem runs_agree_across_widths entropy cs st :
  statics_init rtd1 entropy = statics_init rtd2 entropy
  /\ run rtd1 cs st = run rtd2 cs st.
Proof.
  split.
  - unfold statics_init.
    rewrite (seed_static_cast rtd1 rtd1_ge), (seed_static_cast rtd2 rtd2_ge).
    reflexivity.
  - revert st. induction cs as [|c cs IH]; intros st; [reflexivity|].
    cbn [run]. unfold bind at 1 3.
    assert (Hc : do_call rtd1 c st = do_call rtd2 c st).
    { destruct c as [|seed]; [reflexivity|].
      unfold do_call, bind. rewrite set_seed_any_width. reflexivity. }
    rewrite Hc. destruct (do_call rtd2 c st) as [[r st1]|]; [|reflexivity].
    unfold bind. rewrite IH. reflexivity.
Qed.

End two_platforms.

(** ** Further properties of interleaved executions *)

Section concurrent_more.

Variable rtd : Z.

(** *** The mutex tells whether a thread is inside *)

(** X4. In every state an interleaving reaches, the mutex is held exactly
    when some thread is inside a call body, and while one is, no other
    thread can take a step: it is between calls and cannot construct its
    [lock_guard]. *)
Theorem mutex_held_iff_inside e0 programs schedule sys :
  sys_run rtd schedule (spawn e0 programs) = Some sys ->
  (m_mutex (statics sys) = locked
   <-> exists t th, threads sys !! t = Some th /\ at_pc th <> outside)
  /\ forall t th t',
       threads sys !! t = Some th -> at_pc th <> outside -> t' <> t ->
       sys_step rtd t' sys = None.
Proof.
  intros Hrun.
  destruct (serialized_run rtd schedule _ _ (serialized_spawn e0 programs) Hrun)
    as [(Hfree & Huniq & _) Hhold].
  assert (Hlocked : forall t th, threads sys !! t = Some th ->
                                 at_pc th <> outside ->
                                 m_mutex (statics sys) = locked).
  { intros t th Ht Hin. destruct (m_mutex (statics sys)) eqn:Hm; [|reflexivity].
    exfalso. apply Hin, (Hfree eq_refl t th Ht). }
  split; [split|].
  - exact Hhold.
  - intros (t & th & Ht & Hin). apply (Hlocked t th Ht Hin).
  - intros t th t' Ht Hin Hne. unfold sys_step.
    destruct (threads sys !! t') as [th'|] eqn:Ht'; [|reflexivity].
    assert (Hout : at_pc th' = outside).
    { destruct (outside_dec (at_pc th')) as [Ho|Hin']; [exact Ho|].
      exfalso. apply Hne, (Huniq t' t th' th Ht' Ht Hin' Hin). }
    unfold thread_step, lock. rewrite Hout, (Hlocked t th Ht Hin).
    destruct (pending th'); reflexivity.
Qed.

(** *** Every run can be completed *)

Lemma list_sum_cons x l : list_sum (x :: l) = (x + list_sum l)%nat.
Proof. reflexivity. Qed.

Lemma list_sum_split (f : thread -> nat) (ths : list thread) t th th' :
  ths !! t = Some th ->
  (list_sum (map f (<[t := th']> ths)) + f th
   = list_sum (map f ths) + f th')%nat.
Proof.
  intros Ht. pose proof (lookup_lt_Some _ _ _ Ht) as Hlt.
  rewrite insert_take_drop by exact Hlt.
  rewrite <- (take_drop_middle ths t th Ht) at 3.
  rewrite !map_app, !list_sum_app. cbn [map]. rewrite !list_sum_cons. lia.
Qed.

Lemma thread_step_work st th st' th' :
  thread_steps rtd st th st' th' -> S (steps_left th') = steps_left th.
Proof.
  intros H. unfold steps_left.
  destruct H as [c rest Hpc Hpend Hm|Hpc|seed Hpc|e Hpc|r Hpc];
    rewrite Hpc; cbn [pending at_pc call_steps].
  - rewrite Hpend. cbn [map]. rewrite list_sum_cons.
    destruct c; cbn [call_steps]; lia.
  - lia.
  - lia.
  - lia.
  - lia.
Qed.

Lemma sys_step_work t sys sys' :
  sys_step rtd t sys = Some sys' -> S (work_left sys') = work_left sys.
Proof.
  intros Hstep.
  destruct (sys_step_inv rtd t sys sys' Hstep) as (th & st' & th' & Ht & Hth & ->).
  unfold work_left. cbn [threads].
  pose proof (list_sum_split steps_left (threads sys) t th th' Ht) as Hsum.
  pose proof (thread_step_work _ _ _ _ Hth) as Hdec. lia.
Qed.

Lemma sys_run_app s1 : forall s2 sys sys1 sys2,
  sys_run rtd s1 sys = Some sys1 -> sys_run rtd s2 sys1 = Some sys2 ->
  sys_run rtd (s1 ++ s2) sys = Some sys2.
Proof.
  induction s1 as [|t s1 IH]; intros s2 sys sys1 sys2 H1 H2.
  - injection H1 as <-. exact H2.
  - cbn [sys_run app] in *.
    destruct (sys_step rtd t sys) as [sys'|]; [|discriminate].
    apply (IH s2 sys' sys1 sys2 H1 H2).
Qed.

Lemma completion n : forall sys,
  (work_left sys <= n)%nat ->
  serialized sys /\ holder_inside sys ->
  exists schedule sys',
    sys_run rtd schedule sys = Some sys' /\ finished sys'.
Proof.
  induction n as [|n IH]; intros sys Hn Hinv.
  - destruct (progress rtd sys (proj2 Hinv)) as [Hfin|(t & sys1 & Hstep)].
    + exists [], sys. split; [reflexivity | exact Hfin].
    + pose proof (sys_step_work t sys sys1 Hstep). lia.
  - destruct (progress rtd sys (proj2 Hinv)) as [Hfin|(t & sys1 & Hstep)].
    + exists [], sys. split; [reflexivity | exact Hfin].
    + pose proof (sys_step_work t sys sys1 Hstep) as Hdec.
      destruct (IH sys1 ltac:(lia) (serialized_step rtd t sys sys1 Hinv Hstep))
        as (schedule & sys' & Hrun & Hfin).
      exists (t :: schedule), sys'. cbn [sys_run]. rewrite Hstep.
      split; assumption.
Qed.

(** X2. An interleaving never gets stuck: in every state it reaches, either
    all threads are done or some thread can step, and the run can be
    continued until every thread has completed all its calls. *)
Theorem runs_can_complete e0 programs schedule sys :
  sys_run rtd schedule (spawn e0 programs) = Some sys ->
  (finished sys \/ exists t sys', sys_step rtd t sys = Some sys')
  /\ exists schedule' sys',
       sys_run rtd (schedule ++ schedule') (spawn e0 programs) = Some sys'
       /\ finished sys'.
Proof.
  intros Hrun.
  pose proof (serialized_run rtd schedule _ _ (serialized_spawn e0 programs) Hrun)
    as Hinv.
  split; [apply progress, Hinv|].
  destruct (completion (work_left sys) sys (le_n _) Hinv)
    as (schedule' & sys' & Hrun' & Hfin).
  exists schedule', sys'. split; [|exact Hfin].
  apply (sys_run_app schedule schedule' _ sys sys' Hrun Hrun').
Qed.

(** *** Every completed run is a single-threaded run in some order *)
















(** *** The engine keeps pace with the values handed out *)

(** X8. At every moment of a run of [T] threads that each call [next()]
    [C] times, the engine has advanced exactly as many draws as values have
    been obtained by the threads so far, and those values are, as a
    multiset, the first draws of the engine's stream: none is lost and none
    is handed out twice. *)
Theorem engine_keeps_pace e0 T C schedule sys :
  sys_run rtd schedule (spawn e0 (replicate T (replicate C call_next)))
  = Some sys ->
  m_e (statics sys) = mt19937.discard (length (delivered (threads sys))) e0
  /\ Permutation (delivered (threads sys))
                 (stream e0 (length (delivered (threads sys))))
  /\ (length (delivered (threads sys)) <= T * C)%nat.
Proof.
  intros Hrun.
  pose proof (accounted_run rtd e0 T C schedule _ _
                (serialized_spawn e0 _) (accounted_spawn e0 T C) Hrun)
    as (Hlen & Hall & Heng & Hperm).
  split; [exact Heng|]. split; [exact Hperm|].
  rewrite <- Hlen. clear Hlen Heng Hperm Hrun.
  unfold delivered. induction Hall as [|th ths [_ Hb] _ IH]; [reflexivity|].
  cbn [map concat length]. rewrite length_app.
  unfold budget in Hb. lia.
Qed.

End concurrent_more.

(** ** The further statements at concrete inputs *)

Lemma demo_prefix_runs : sys_run 64 demo_prefix demo_start = Some demo_midway.
Proof. vm_compute. reflexivity. Qed.


Lemma runs_can_complete_witness :
  (finished demo_midway \/ exists t sys', sys_step 64 t demo_midway = Some sys')
  /\ exists schedule' sys',
       sys_run 64 (demo_prefix ++ schedule') demo_start = Some sys'
       /\ finished sys'.
Proof.
  exact (runs_can_complete 64 _ _ _ _ demo_prefix_runs).
Defined.

Lemma mutex_held_iff_inside_witness :
  m_mutex (statics demo_midway) = locked
  /\ sys_step 64 0 demo_midway = None.
Proof.
  destruct (mutex_held_iff_inside 64 _ _ _ _ demo_prefix_runs) as [Hiff Hblock].
  assert (Hin : exists th, threads demo_midway !! 1%nat = Some th
                           /\ at_pc th <> outside).
  { eexists. split; [reflexivity | discriminate]. }
  destruct Hin as (th & Hth & Hin). split.
  - apply Hiff. exists 1%nat, th. split; assumption.
  - apply (Hblock 1%nat th 0%nat Hth Hin). discriminate.
Defined.

Lemma set_seed_same_iff_witness :
  (set_seed 64 5 (statics_init 64 1) = set_seed 64 (5 + 2 ^ 32) (statics_init 64 1)
   <-> 5 mod 2 ^ 32 = (5 + 2 ^ 32) mod 2 ^ 32)
  /\ set_seed 64 5 (statics_init 64 1) <> set_seed 64 6 (statics_init 64 1).
Proof.
  split.
  - apply (set_seed_same_iff 64 ltac:(lia)). reflexivity.
  - apply (set_seed_same_iff 64 ltac:(lia) (statics_init 64 1) 5 6 eq_refl); lia.
Defined.

Lemma runs_agree_across_widths_witness :
  statics_init 32 123456789 = statics_init 64 123456789
  /\ run 32 [call_set_seed 42; call_next] (statics_init 32 0)
     = run 64 [call_set_seed 42; call_next] (statics_init 32 0).
Proof.
  apply (runs_agree_across_widths 32 64); lia.
Defined.

Lemma engine_keeps_pace_witness :
  m_e (statics demo_midway)
  = mt19937.discard (length (delivered (threads demo_midway)))
      (mt19937.seed mt19937.default_seed)
  /\ Permutation (delivered (threads demo_midway))
       (stream (mt19937.seed mt19937.default_seed)
          (length (delivered (threads demo_midway))))
  /\ (length (delivered (threads demo_midway)) <= 2 * 2)%nat.
Proof.
  exact (engine_keeps_pace 64 _ 2 2 _ _ demo_prefix_runs).
Defined.
